(** * Translation-migration scripts of storyarn: a shallow embedding

    The three maintenance scripts under [scripts/] are embedded as Rocq
    functions: [gettext_split.py] (routing table and call rewriter),
    [migrate_translations.py] (PO parser and back-fill) and
    [verify_translations.py] (PO parser and coverage check).

    A Python [str] is a sequence of Unicode code points: it is modelled as
    a list of numbers.  A [dict] is a finite map ([gmap]), a [set] a finite
    set ([gset]).  The regular expressions of the scripts are embedded as
    matchers driven by one substitution engine that follows [re.sub]. *)

From Stdlib Require Import NArith Ascii String List Bool Lia.
From stdpp Require Import base option list gmap sets.

Local Open Scope N_scope.

(** ** Python strings *)

Abbreviation char := N (only parsing).
Abbreviation str := (list N) (only parsing).

(** [py "abc"] is the Python literal ['abc'] (ASCII text only). *)
Definition py (s : string) : str :=
  map N_of_ascii (list_ascii_of_string s).

Definition NL : char := 10.   (* the line feed *)
Definition DQ : char := 34.   (* the double quote *)
Definition BS : char := 92.   (* the backslash *)

Module Py.

(** [s.startswith(p)] *)
Fixpoint startswith (p s : str) : bool :=
  match p, s with
  | [], _ => true
  | _ :: _, [] => false
  | a :: p', b :: s' => (a =? b) && startswith p' s'
  end.

(** [p in s] on strings: substring test. *)
Fixpoint contains (p s : str) : bool :=
  startswith p s ||
  match s with
  | [] => false
  | _ :: s' => contains p s'
  end.

(** The scan of [s.replace(old, new)] for a non-empty [old]: leftmost
    occurrences, never overlapping.  [skip] counts the characters of the
    occurrence just replaced that are still to be passed over. *)
Fixpoint replace_from (old new : str) (skip : nat) (s : str) : str :=
  match s with
  | [] => []
  | c :: t =>
      match skip with
      | S k => replace_from old new k t
      | O =>
          if startswith old s
          then new ++ replace_from old new (length old - 1) t
          else c :: replace_from old new 0 t
      end
  end.

(** [s.replace(old, new)]; an empty [old] matches before every character
    and at the end. *)
Definition replace (old new s : str) : str :=
  match old with
  | [] => new ++ flat_map (fun c => c :: new) s
  | _ :: _ => replace_from old new 0 s
  end.

(** [str.isspace] on one character, which is also [\s] of [re] on [str]
    patterns: the white-space code points of CPython's Unicode tables. *)
Definition isspace (c : char) : bool :=
  ((9 <=? c) && (c <=? 13)) || ((28 <=? c) && (c <=? 32))
  || (c =? 133) || (c =? 160) || (c =? 5760)
  || ((8192 <=? c) && (c <=? 8202))
  || (c =? 8232) || (c =? 8233) || (c =? 8239) || (c =? 8287)
  || (c =? 12288).

Fixpoint lstrip (s : str) : str :=
  match s with
  | c :: t => if isspace c then lstrip t else s
  | [] => []
  end.

(** [s.rstrip()] *)
Fixpoint rstrip (s : str) : str :=
  match s with
  | [] => []
  | c :: t =>
      match rstrip t with
      | [] => if isspace c then [] else [c]
      | t' => c :: t'
      end
  end.

(** [s.strip()] *)
Definition strip (s : str) : str := rstrip (lstrip s).

(** [s[1:-1]] and, in general, [s[a:-1]]. *)
Definition slice_to_last (a : nat) (s : str) : str :=
  drop a (take (length s - 1) s).

(** [s.index(c)] for a one-character [c]; [None] is [ValueError]. *)
Fixpoint index (c : char) (s : str) : option nat :=
  match s with
  | [] => None
  | x :: t => if x =? c then Some O else S <$> index c t
  end.

(** Line boundaries of [str.splitlines]. *)
Definition is_linebreak (c : char) : bool :=
  ((10 <=? c) && (c <=? 13)) || ((28 <=? c) && (c <=? 30))
  || (c =? 133) || (c =? 8232) || (c =? 8233).

(** [s.splitlines()]: [cur] is the line being read, reversed.  A carriage
    return followed by a line feed is one boundary; no empty last line is
    produced after a final boundary. *)
Fixpoint splitlines_from (cur : str) (s : str) : list str :=
  match s with
  | [] => match cur with [] => [] | _ => [rev cur] end
  | c :: t =>
      if is_linebreak c then
        match t with
        | d :: t' =>
            if (c =? 13) && (d =? 10)
            then rev cur :: splitlines_from [] t'
            else rev cur :: splitlines_from [] t
        | [] => [rev cur]
        end
      else splitlines_from (c :: cur) t
  end.

Definition splitlines (s : str) : list str := splitlines_from [] s.

(** [s.endswith(p)] *)
Definition endswith (p s : str) : bool := startswith (rev p) (rev s).

(** [a <= b] on strings: lexicographic on code points. *)
Fixpoint str_le (a b : str) : bool :=
  match a, b with
  | [], _ => true
  | _ :: _, [] => false
  | x :: a', y :: b' => (x <? y) || ((x =? y) && str_le a' b')
  end.

(** [sorted] on records ordered by their name (file names of one
    directory are distinct, so any sorting algorithm gives the same
    list): insertion from the right keeps equal names in order. *)
Fixpoint insert_sorted {A} (x : str * A) (l : list (str * A))
  : list (str * A) :=
  match l with
  | [] => [x]
  | y :: l' => if str_le x.1 y.1 then x :: l else y :: insert_sorted x l'
  end.

Definition sorted {A} (l : list (str * A)) : list (str * A) :=
  foldr insert_sorted [] l.

End Py.

(** ** Regular expressions: the parts of [re] the scripts use *)

Module Re.

(** *** Replacement templates

    [re.sub] processes the backslash escapes of a replacement string
    ([parse_template] of CPython): [TLit] is a literal character and
    [TGroup i] a reference to group [i] (group 0 is the whole match). *)
Inductive titem : Type :=
| TLit (c : char)
| TGroup (i : N).

Inductive tstate : Type :=
| T0                      (* between escapes *)
| TBs                     (* after a backslash *)
| TG                      (* after backslash g *)
| TName (v : option N)    (* inside the angle brackets of a group name *)
| TOct (n : nat) (v : N)  (* after backslash 0: [n] more octal digits *)
| TD1 (d1 : N)            (* after backslash and one digit 1-9 *)
| TD2 (d1 d2 : N).        (* after backslash and two digits *)

Definition is_digit (c : char) : bool := (48 <=? c) && (c <=? 57).
Definition is_octdigit (c : char) : bool := (48 <=? c) && (c <=? 55).
Definition is_ascii_letter (c : char) : bool :=
  ((65 <=? c) && (c <=? 90)) || ((97 <=? c) && (c <=? 122)).

(** The table [ESCAPES] of [re._parser]: a b f n r t v and the backslash. *)
Definition ESCAPES (c : char) : option char :=
  if c =? 97 then Some 7 else if c =? 98 then Some 8
  else if c =? 102 then Some 12 else if c =? 110 then Some 10
  else if c =? 114 then Some 13 else if c =? 116 then Some 9
  else if c =? 118 then Some 11 else if c =? 92 then Some 92
  else None.

(** [addgroup]: a reference beyond the groups of the pattern is an error. *)
Definition addgroup (ngroups i : N) (k : option (list titem))
  : option (list titem) :=
  if ngroups <? i then None else cons (TGroup i) <$> k.

(** [parse_template]; [None] is the exception [re.error]. *)
Fixpoint template_from (ngroups : N) (st : tstate) (s : str)
  : option (list titem) :=
  match s with
  | [] =>
      match st with
      | T0 => Some []
      | TBs | TG | TName _ => None
      | TOct _ v => Some [TLit (N.land v 255)]
      | TD1 d1 => addgroup ngroups (d1 - 48) (Some [])
      | TD2 d1 d2 => addgroup ngroups (10 * (d1 - 48) + (d2 - 48)) (Some [])
      end
  | c :: t =>
      let normal :=
        if c =? BS then template_from ngroups TBs t
        else cons (TLit c) <$> template_from ngroups T0 t in
      match st with
      | T0 => normal
      | TBs =>
          if c =? 103 then template_from ngroups TG t
          else if c =? 48 then template_from ngroups (TOct 2 0) t
          else if is_digit c then template_from ngroups (TD1 c) t
          else match ESCAPES c with
               | Some x => cons (TLit x) <$> template_from ngroups T0 t
               | None =>
                   if is_ascii_letter c then None
                   else (fun k => TLit BS :: TLit c :: k)
                          <$> template_from ngroups T0 t
               end
      | TG => if c =? 60 then template_from ngroups (TName None) t else None
      | TName v =>
          if c =? 62 then
            match v with
            | None => None
            | Some i => addgroup ngroups i (template_from ngroups T0 t)
            end
          else if is_digit c then
            template_from ngroups
              (TName (Some (10 * default 0 v + (c - 48)))) t
          else None
      | TOct n v =>
          match n with
          | S n' =>
              if is_octdigit c
              then template_from ngroups (TOct n' (8 * v + (c - 48))) t
              else cons (TLit (N.land v 255)) <$> normal
          | O => cons (TLit (N.land v 255)) <$> normal
          end
      | TD1 d1 =>
          if is_digit c then template_from ngroups (TD2 d1 c) t
          else addgroup ngroups (d1 - 48) normal
      | TD2 d1 d2 =>
          if is_octdigit d1 && is_octdigit d2 && is_octdigit c then
            let v := 64 * (d1 - 48) + 8 * (d2 - 48) + (c - 48) in
            if 255 <? v then None
            else cons (TLit v) <$> template_from ngroups T0 t
          else addgroup ngroups (10 * (d1 - 48) + (d2 - 48)) normal
      end
  end.

Definition parse_template (ngroups : N) (repl : str) : option (list titem) :=
  template_from ngroups T0 repl.

(** Expansion of a parsed template at one match: [whole] is the matched
    text and [groups] the captured groups 1, 2, ... *)
Definition expand (tmpl : list titem) (whole : str) (groups : list str)
  : str :=
  flat_map (fun it =>
              match it with
              | TLit c => [c]
              | TGroup i =>
                  if i =? 0 then whole
                  else default [] (groups !! (N.to_nat i - 1)%nat)
              end) tmpl.

(** *** Matching and substitution

    A compiled pattern is a matcher: given the character before the
    current position (none at the start of the subject) and the subject
    from the current position on, it returns the length of the match that
    starts here and its groups.  No pattern of the scripts matches the
    empty string. *)
Definition matcher : Type := option char -> str -> option (nat * list str).

(** The scan of [pattern.sub]: leftmost matches, the search resuming
    where the previous match ended; look-behind sees the subject, not the
    replacement. *)
Fixpoint sub_from (m : matcher) (tmpl : list titem) (skip : nat)
  (prev : option char) (s : str) : str :=
  match s with
  | [] => []
  | c :: t =>
      match skip with
      | S k => sub_from m tmpl k (Some c) t
      | O =>
          match m prev s with
          | Some (len, groups) =>
              expand tmpl (take len s) groups
                ++ sub_from m tmpl (len - 1) (Some c) t
          | None => c :: sub_from m tmpl 0 (Some c) t
          end
      end
  end.

(** [re.sub(pattern, repl, s)] for a pattern with [ngroups] groups. *)
Definition sub (m : matcher) (ngroups : N) (repl s : str) : option str :=
  tmpl ← parse_template ngroups repl;
  Some (sub_from m tmpl 0 None s).

(** [re.search(pattern, s)]: the groups of the leftmost match. *)
Fixpoint search_from (m : matcher) (prev : option char) (s : str)
  : option (list str) :=
  match s with
  | [] => None
  | c :: t =>
      match m prev s with
      | Some (_, groups) => Some groups
      | None => search_from m (Some c) t
      end
  end.

Definition search (m : matcher) (s : str) : option (list str) :=
  search_from m None s.

(** [^] under [re.MULTILINE]: at the start or after a line feed. *)
Definition at_bol (prev : option char) : bool :=
  match prev with
  | None => true
  | Some c => c =? NL
  end.

(** [$] under [re.MULTILINE]: at the end or before a line feed. *)
Definition at_eol (rest : str) : bool :=
  match rest with
  | [] => true
  | c :: _ => c =? NL
  end.

(** The number of leading characters of [s] matched by a greedy [\s*]. *)
Fixpoint spaces (s : str) : nat :=
  match s with
  | c :: t => if Py.isspace c then S (spaces t) else O
  | [] => O
  end.

End Re.

(** ** gettext_split.py: routing table and call rewriter *)

Module GettextSplit.

(** The routing table, in definition order. *)
Definition DOMAIN_RULES : list (str * str) :=
  [
    (py "storyarn_web/live/flow_live/", py "flows");
    (py "storyarn_web/components/condition_builder.ex", py "flows");
    (py "storyarn_web/components/instruction_builder.ex", py "flows");
    (py "storyarn_web/components/sidebar/flow_tree.ex", py "flows");
    (py "storyarn_web/live/map_live/", py "maps");
    (py "storyarn_web/components/sidebar/map_tree.ex", py "maps");
    (py "storyarn_web/live/sheet_live/", py "sheets");
    (py "storyarn_web/components/block_components.ex", py "sheets");
    (py "storyarn_web/components/block_components/", py "sheets");
    (py "storyarn_web/components/audio_picker.ex", py "sheets");
    (py "storyarn_web/components/sidebar/sheet_tree.ex", py "sheets");
    (py "storyarn/sheets/versioning.ex", py "sheets");
    (py "storyarn_web/live/localization_live/", py "localization");
    (py "storyarn_web/live/project_live/", py "projects");
    (py "storyarn_web/live/workspace_live/", py "workspaces");
    (py "storyarn_web/live/settings_live/workspace_members.ex", py "workspaces");
    (py "storyarn_web/live/settings_live/workspace_general.ex", py "workspaces");
    (py "storyarn_web/live/screenplay_live/", py "screenplays");
    (py "storyarn_web/controllers/screenplay_export_controller.ex", py "screenplays");
    (py "storyarn_web/components/sidebar/screenplay_tree.ex", py "screenplays");
    (py "storyarn_web/live/user_live/", py "identity");
    (py "storyarn_web/controllers/user_session_controller.ex", py "identity");
    (py "storyarn_web/controllers/oauth_controller.ex", py "identity");
    (py "storyarn_web/user_auth.ex", py "identity");
    (py "storyarn/accounts/registration.ex", py "identity");
    (py "storyarn_web/live/settings_live/profile.ex", py "settings");
    (py "storyarn_web/live/settings_live/security.ex", py "settings");
    (py "storyarn_web/live/settings_live/connections.ex", py "settings");
    (py "storyarn_web/live/asset_live/", py "assets");
    (py "storyarn_web/live/components/asset_upload.ex", py "assets");
    (py "storyarn_web/components/layouts.ex", py "default");
    (py "storyarn_web/components/core_components.ex", py "default");
    (py "storyarn_web/components/project_sidebar.ex", py "default");
    (py "storyarn_web/components/sidebar.ex", py "default");
    (py "storyarn_web/components/collaboration_components.ex", py "default");
    (py "storyarn_web/components/member_components.ex", py "default");
    (py "storyarn_web/components/save_indicator.ex", py "default");
    (py "storyarn_web/components/ui_components.ex", py "default");
    (py "storyarn_web/helpers/authorize.ex", py "default")
  ].

(** [get_domain]: the loop over the table, returning at the first rule
    whose prefix the path starts with. *)
Fixpoint get_domain_in (rules : list (str * str)) (rel_path : str)
  : option str :=
  match rules with
  | [] => None
  | (prefix, domain) :: rest =>
      if Py.startswith prefix rel_path then Some domain
      else get_domain_in rest rel_path
  end.

Definition get_domain (rel_path : str) : option str :=
  get_domain_in DOMAIN_RULES rel_path.

(** [SKIP_FILES] *)
Definition SKIP_FILES : list str :=
  [py "storyarn_web/helpers/authorize.ex"].

Section Patterns.

(** [str.isalnum] of one character above the ASCII range: CPython's
    Unicode tables, which the development leaves open. *)
Variable uni_alnum : char -> bool.

(** [\w] on [str] patterns: alphanumeric or the underscore. *)
Definition is_word (c : char) : bool :=
  if c <? 128 then
    ((48 <=? c) && (c <=? 57)) || ((65 <=? c) && (c <=? 90))
    || ((97 <=? c) && (c <=? 122)) || (c =? 95)
  else uni_alnum c.

(** The look-behind [(?<![d\w])]: fails after a [d] or a word
    character. *)
Definition behind_d_or_word (prev : option char) : bool :=
  match prev with
  | None => false
  | Some c => (c =? 100) || is_word c
  end.

(** [\b] in front of a word character. *)
Definition word_start (prev : option char) : bool :=
  match prev with
  | None => true
  | Some c => negb (is_word c)
  end.

(** A literal name behind the look-behind: forms A and B. *)
Definition bare_call (name : str) : Re.matcher := fun prev s =>
  if negb (behind_d_or_word prev) && Py.startswith name s
  then Some (length name, [])
  else None.

(** Forms C and D: [\b], the qualified name and the parenthesis, [\s*],
    the locale handle and the comma, [\s*]. *)
Definition module_call (name : str) : Re.matcher := fun prev s =>
  if word_start prev && Py.startswith name s then
    let r1 := drop (length name) s in
    let w1 := Re.spaces r1 in
    let r2 := drop w1 r1 in
    let handle := py "StoryarnWeb.Gettext," in
    if Py.startswith handle r2 then
      let r3 := drop (length handle) r2 in
      Some ((length name + w1 + length handle + Re.spaces r3)%nat, [])
    else None
  else None.

Definition RE_GETTEXT : Re.matcher := bare_call (py "gettext(").
Definition RE_NGETTEXT : Re.matcher := bare_call (py "ngettext(").
Definition RE_MOD_GETTEXT : Re.matcher :=
  module_call (py "Gettext.gettext(").
Definition RE_MOD_NGETTEXT : Re.matcher :=
  module_call (py "Gettext.ngettext(").

(** The f-string ['{head}"{domain}", ']. *)
Definition with_domain (head domain : str) : str :=
  head ++ [DQ] ++ domain ++ [DQ] ++ py ", ".

(** [transform_content]: forms C, D, A, B in this order; [None] is the
    [re.error] a replacement string can raise. *)
Definition transform_content (content domain : str) : option str :=
  content ← Re.sub RE_MOD_GETTEXT 0
    (with_domain (py "Gettext.dgettext(StoryarnWeb.Gettext, ") domain)
    content;
  content ← Re.sub RE_MOD_NGETTEXT 0
    (with_domain (py "Gettext.dngettext(StoryarnWeb.Gettext, ") domain)
    content;
  content ← Re.sub RE_GETTEXT 0
    (with_domain (py "dgettext(") domain) content;
  content ← Re.sub RE_NGETTEXT 0
    (with_domain (py "dngettext(") domain) content;
  Some content.

(** [process_file], given [rel], the path of the file relative to the
    library root as [os.path.relpath] returns it, and [original], the text
    of the file.  The result is the flag the function returns and the text
    it writes to the file, if it writes; [None] is an exception. *)
Definition process_file (rel original : str) (dry_run : bool)
  : option (bool * option str) :=
  let rel_norm := Py.replace [BS] [47] rel in
  if existsb (fun skip => Py.endswith skip rel_norm
                          || bool_decide (rel_norm = skip)) SKIP_FILES
  then Some (false, None)
  else
    match get_domain rel_norm with
    | None => Some (false, None)
    | Some domain =>
        if bool_decide (domain = py "default") then Some (false, None)
        else
          transformed ← transform_content original domain;
          if bool_decide (transformed = original) then Some (false, None)
          else Some (true, if dry_run then None else Some transformed)
    end.

End Patterns.

End GettextSplit.

(** ** Translation tables

    A key of a table is a [str] (simple entry) or a pair of them (plural
    entry), as in the dictionaries both PO scripts build. *)

Inductive key : Type :=
| KStr (msgid : str)
| KPair (msgid msgid_plural : str).

Definition key_to_sum (k : key) : str + str * str :=
  match k with
  | KStr a => inl a
  | KPair a b => inr (a, b)
  end.

Definition key_of_sum (x : str + str * str) : key :=
  match x with
  | inl a => KStr a
  | inr (a, b) => KPair a b
  end.

Lemma key_of_to_sum (k : key) : key_of_sum (key_to_sum k) = k.
Proof. by destruct k. Qed.

#[global] Instance key_eq_dec : EqDecision key.
Proof. solve_decision. Defined.

#[global] Instance key_countable : Countable key :=
  inj_countable' key_to_sum key_of_sum key_of_to_sum.

(** The first component of a key: the primary key of the entry. *)
Definition primary (k : key) : str :=
  match k with
  | KStr a => a
  | KPair a _ => a
  end.

(** Truth value of a Python string. *)
Definition nonempty (s : str) : bool :=
  match s with
  | [] => false
  | _ :: _ => true
  end.

(** ** What both PO scripts share: the line format

    The two scripts carry their own copies of the parser; the patterns and
    the builtins they call are the same. *)

Module Po.

Definition kw_msgid : str := py "msgid ".
Definition kw_msgid_plural : str := py "msgid_plural ".
Definition kw_msgstr_quote : str := py "msgstr " ++ [DQ].

(** [lines[j].startswith(QUOTE)], the test of a continuation line. *)
Definition is_continuation (line : str) : bool := Py.startswith [DQ] line.

(** The lines the loop [while j < len(lines) and lines[j].startswith(..)]
    walks over. *)
Fixpoint continuation (rest : list str) : list str :=
  match rest with
  | l :: rest' => if is_continuation l then l :: continuation rest' else []
  | [] => []
  end.

(** [val += lines[j][1:-1]] over these lines. *)
Definition continued (val : str) (rest : list str) : str :=
  val ++ concat (map (Py.slice_to_last 1) (continuation rest)).

(** The text a greedy run of any characters followed by a quote
    captures: up to the last quote. *)
Fixpoint upto_last_quote (s : str) : option str :=
  match s with
  | [] => None
  | c :: t =>
      match upto_last_quote t with
      | Some r => Some (c :: r)
      | None => if c =? DQ then Some [] else None
      end
  end.

(** The characters [.] can match from here: up to the next line feed. *)
Fixpoint upto_newline (s : str) : str :=
  match s with
  | c :: t => if c =? NL then [] else c :: upto_newline t
  | [] => []
  end.

(** The most digits [int] converts from a string: CPython's default
    ([sys.get_int_max_str_digits]), leading zeros included. *)
Definition INT_MAX_STR_DIGITS : N := 4300.

Section Decimal.

(** Decimal digits above the ASCII range and their values: CPython's
    Unicode tables, left open. *)
Variable uni_decimal : char -> option N.

(** [\d] on [str] patterns, with the value [int] gives the digit. *)
Definition decimal_value (c : char) : option N :=
  if c <? 128 then
    if Re.is_digit c then Some (c - 48) else None
  else uni_decimal c.

Definition is_decimal (c : char) : bool := bool_decide (is_Some (decimal_value c)).

Fixpoint digits (s : str) : str :=
  match s with
  | c :: t => if is_decimal c then c :: digits t else []
  | [] => []
  end.

(** [int] of a run of decimal digits; [None] is the [ValueError] CPython
    raises for a run longer than its limit. *)
Definition int (ds : str) : option N :=
  if INT_MAX_STR_DIGITS <? N.of_nat (length ds) then None
  else Some (fold_left
               (fun acc c => 10 * acc + default 0 (decimal_value c)) ds 0).

(** [re.match] of the pattern of an indexed value line: the keyword
    and a bracketed run of [\d], then [\s+], a quote, a greedy run of
    any characters and a quote.  Returns the two groups: the digits of
    the index and the raw value. *)
Definition match_msgstr_index (line : str) : option (str * str) :=
  let head := py "msgstr[" in
  if Py.startswith head line then
    let r1 := drop (length head) line in
    let ds := digits r1 in
    match ds, drop (length ds) r1 with
    | _ :: _, c :: r2 =>
        if c =? 93 then
          let w := Re.spaces r2 in
          match w, drop w r2 with
          | S _, q :: r3 =>
              if q =? DQ then
                val ← upto_last_quote (upto_newline r3);
                Some (ds, val)
              else None
          | _, _ => None
          end
        else None
    | _, _ => None
    end
  else None.

End Decimal.

(** The body of a quoted string in the patterns of the fill operation:
    a greedy repetition of either a character other than the quote and
    the backslash, or a backslash and any character but the line feed,
    then a closing quote.  Each character admits one alternative only, so
    no shorter repetition can be followed by the quote. *)
Fixpoint quoted_body (s : str) : option str :=
  match s with
  | [] => None
  | c :: t =>
      if c =? DQ then Some []
      else if c =? BS then
        match t with
        | [] => None
        | e :: t' =>
            if e =? NL then None
            else (fun g => c :: e :: g) <$> quoted_body t'
        end
      else cons c <$> quoted_body t
  end.

(** The declaration pattern under [re.MULTILINE]: [^], the keyword [kw]
    ([msgid] or [msgid_plural]), [\s+], a quote and the quoted body, which
    is group 1. *)
Definition declaration (kw : str) : Re.matcher := fun prev s =>
  if Re.at_bol prev && Py.startswith kw s then
    let r1 := drop (length kw) s in
    let w := Re.spaces r1 in
    match w, drop w r1 with
    | S _, q :: r2 =>
        if q =? DQ then
          g ← quoted_body r2;
          Some ((length kw + w + 1 + length g + 1)%nat, [g])
        else None
    | _, _ => None
    end
  else None.

(** [^line$] under [re.MULTILINE] for a literal [line], with the groups
    the pattern captures. *)
Definition whole_line (line : str) (groups : list str) : Re.matcher :=
  fun prev s =>
    if Re.at_bol prev && Py.startswith line s
       && Re.at_eol (drop (length line) s)
    then Some (length line, groups)
    else None.

Definition empty_msgstr : str := py "msgstr " ++ [DQ; DQ].
Definition empty_msgstr0 : str := py "msgstr[0] " ++ [DQ; DQ].

(** [re.split] on [\n\n+], keeping each separator with the text before
    it (the last text has the empty separator).  [sep] is the separator
    being read, reversed, once two line feeds have been seen; [cur] is
    the text being read, reversed. *)
Fixpoint split_blocks (cur : str) (sep : option str) (s : str)
  : list (str * str) :=
  match s with
  | [] =>
      match sep with
      | Some sp => [(rev cur, rev sp); ([], [])]
      | None => [(rev cur, [])]
      end
  | c :: t =>
      match sep with
      | Some sp =>
          if c =? NL then split_blocks cur (Some (c :: sp)) t
          else (rev cur, rev sp) :: split_blocks [c] None t
      | None =>
          if (c =? NL) && Py.startswith [NL] t
          then split_blocks cur (Some [c]) t
          else split_blocks (c :: cur) None t
      end
  end.

End Po.

(** ** migrate_translations.py: parser and back-fill *)

Module Migrate.

(** [_unescape]: three replacements, in this order. *)
Definition _unescape (s : str) : str :=
  Py.replace [BS; BS] [BS]
    (Py.replace [BS; DQ] [DQ]
       (Py.replace [BS; 110] [NL] s)).

(** [_escape] *)
Definition _escape (s : str) : str :=
  Py.replace [NL] [BS; 110]
    (Py.replace [DQ] [BS; DQ]
       (Py.replace [BS] [BS; BS] s)).

(** [_read_string(lines, i)], given the line [lines[i]] and the lines
    after it; [None] is the [ValueError] of [line.index]. *)
Definition _read_string (line : str) (rest : list str) : option str :=
  first_quote ← Py.index DQ line;
  let val := Py.slice_to_last (first_quote + 1) line in
  Some (_unescape (Po.continued val rest)).

(** [_skip_string(lines, i) - (i + 1)]: how many of the lines after
    [lines[i]] the returned index passes over. *)
Definition _skip_string (rest : list str) : nat :=
  length (Po.continuation rest).

(** The variables of one turn of the loop over blocks. *)
Record entry : Type := Entry {
  msgid : option str;
  msgid_plural : option str;
  msgstr : option str;
  msgstr_plural : gmap N str
}.

Definition no_entry : entry := Entry None None None ∅.

Section Parse.

Variable uni_decimal : char -> option N.

(** The loop [while i < len(lines)]: [skip] is the distance from the
    current line to the index [i] the last assignment set. *)
Fixpoint scan_lines (skip : nat) (e : entry) (lines : list str)
  : option entry :=
  match lines with
  | [] => Some e
  | line :: rest =>
      match skip with
      | S k => scan_lines k e rest
      | O =>
          if Py.startswith Po.kw_msgid line then
            v ← _read_string line rest;
            scan_lines (_skip_string rest)
              (Entry (Some v) (msgid_plural e) (msgstr e)
                 (msgstr_plural e)) rest
          else if Py.startswith Po.kw_msgid_plural line then
            v ← _read_string line rest;
            scan_lines (_skip_string rest)
              (Entry (msgid e) (Some v) (msgstr e) (msgstr_plural e))
              rest
          else if Py.startswith Po.kw_msgstr_quote line then
            v ← _read_string line rest;
            scan_lines (_skip_string rest)
              (Entry (msgid e) (msgid_plural e) (Some v)
                 (msgstr_plural e)) rest
          else
            match Po.match_msgstr_index uni_decimal line with
            | Some (digits, val) =>
                idx ← Po.int uni_decimal digits;
                let val := Po.continued val rest in
                scan_lines (length (Po.continuation rest))
                  (Entry (msgid e) (msgid_plural e) (msgstr e)
                     (<[idx := _unescape val]> (msgstr_plural e)))
                  rest
            | None => scan_lines 0 e rest
            end
      end
  end.

(** What one block adds to [translations] once its lines are read. *)
Definition store (e : entry) (translations : gmap key str)
  : gmap key str :=
  match msgid e with
  | None => translations
  | Some id =>
      if negb (nonempty id) then translations   (* header block *)
      else
        match msgid_plural e with
        | Some pl =>
            <[KPair id pl := default [] (msgstr_plural e !! 0)]>
              translations
        | None =>
            match msgstr e with
            | Some v => <[KStr id := v]> translations
            | None => translations
            end
        end
  end.

(** The body of [for block in blocks]. *)
Definition parse_block (translations : gmap key str) (block : str)
  : option (gmap key str) :=
  e ← scan_lines 0 no_entry (Py.splitlines (Py.strip block));
  Some (store e translations).

Fixpoint parse_blocks (translations : gmap key str) (blocks : list str)
  : option (gmap key str) :=
  match blocks with
  | [] => Some translations
  | block :: rest =>
      translations ← parse_block translations block;
      parse_blocks translations rest
  end.

(** [parse_po] on the text of the file; [None] is an exception. *)
Definition parse_po (content : str) : option (gmap key str) :=
  parse_blocks ∅ (fst <$> Po.split_blocks [] None (Py.strip content)).

End Parse.

Definition msgid_pattern : Re.matcher := Po.declaration (py "msgid").
Definition msgid_plural_pattern : Re.matcher :=
  Po.declaration (py "msgid_plural").

(** [_fill_block]; [None] is the [re.error] of a replacement string. *)
Definition _fill_block (block : str) (translations : gmap key str)
  : option (str * nat * nat) :=
  if negb (nonempty (Py.strip block)) || negb (Py.contains (py "msgid") block)
  then Some (block, 0, 0)%nat
  else
    match Re.search msgid_pattern block with
    | None => Some (block, 0, 0)%nat
    | Some groups =>
        let msgid := _unescape (default [] (groups !! 0%nat)) in
        if negb (nonempty msgid) then Some (block, 0, 0)%nat   (* header *)
        else
          match Re.search msgid_plural_pattern block with
          | Some pgroups =>
              let msgid_plural := _unescape (default [] (pgroups !! 0%nat)) in
              let key := KPair msgid msgid_plural in
              if bool_decide
                   (is_Some (Re.search (Po.whole_line Po.empty_msgstr0 []) block))
              then
                let translation := default [] (translations !! key) in
                if nonempty translation then
                  let escaped := _escape translation in
                  new_block ←
                    Re.sub
                      (Po.whole_line Po.empty_msgstr0 [py "msgstr[0] "]) 1
                      ([BS; 49; DQ] ++ escaped ++ [DQ]) block;
                  Some (new_block, 1, 1)%nat
                else Some (block, 0, 1)%nat
              else Some (block, 0, 1)%nat
          | None =>
              if bool_decide
                   (is_Some (Re.search (Po.whole_line Po.empty_msgstr []) block))
              then
                let translation := default [] (translations !! KStr msgid) in
                if nonempty translation then
                  let escaped := _escape translation in
                  new_block ←
                    Re.sub (Po.whole_line Po.empty_msgstr []) 0
                      (py "msgstr " ++ [DQ] ++ escaped ++ [DQ]) block;
                  Some (new_block, 1, 1)%nat
                else Some (block, 0, 1)%nat
              else Some (block, 0, 1)%nat
          end
    end.

(** The loop of [fill_po_file] over the parts [re.split] returns, with
    the running counts and the parts of the result. *)
Fixpoint fill_parts (parts : list (str * str))
  (translations : gmap key str) : option (str * nat * nat) :=
  match parts with
  | [] => Some ([], 0, 0)%nat
  | (part, sep) :: rest =>
      '(new_part, f_count, t_count) ← _fill_block part translations;
      '(tail, filled, total) ← fill_parts rest translations;
      Some (new_part ++ sep ++ tail, f_count + filled, t_count + total)%nat
  end.

(** [fill_po_file] on the text of the file: the new text and the pair
    the function returns.  The caller writes the text back when it
    differs and the run is not a dry run. *)
Definition fill_po_file (content : str) (translations : gmap key str)
  : option (str * nat * nat) :=
  fill_parts (Po.split_blocks [] None content) translations.

(** The end of [fill_po_file]: the text written to the file, if any, with
    the pair returned. *)
Definition fill_po_file_write (content : str) (translations : gmap key str)
  (dry_run : bool) : option (option str * nat * nat) :=
  '(new_content, filled, total) ← fill_po_file content translations;
  Some (if negb dry_run && bool_decide (new_content ≠ content)
        then Some new_content else None,
        filled, total).

Inductive outcome : Type :=
| Exit (status : nat)   (* [sys.exit(status)] *)
| Uncaught              (* an exception leaves [main]; what was written
                           before it is not recorded *)
| Done (written : list (str * str)) (total_filled total_entries : nat).
                        (* the normal end: the files written, with their
                           new text, and the totals printed *)

Section Main.

Variable uni_decimal : char -> option N.

(** The loop [for po_file in po_files] of [main]. *)
Fixpoint fill_all (po_files : list (str * str))
  (translations : gmap key str) (dry_run : bool)
  : option (list (str * str) * nat * nat) :=
  match po_files with
  | [] => Some ([], 0, 0)%nat
  | (po_file, content) :: rest =>
      '(written, filled, total) ←
        fill_po_file_write content translations dry_run;
      '(writes, total_filled, total_entries) ←
        fill_all rest translations dry_run;
      Some (match written with
            | Some text => (po_file, text) :: writes
            | None => writes
            end,
            filled + total_filled, total + total_entries)%nat
  end.

(** [main]: [dry_run] is the presence of the flag on the command line,
    [backup_file] the text of the backup when the file exists, [listing]
    the names and texts of the files of the locale directory. *)
Definition main (dry_run : bool) (backup_file : option str)
  (listing : list (str * str)) : outcome :=
  match backup_file with
  | None => Exit 1
  | Some text =>
      match parse_po uni_decimal text with
      | None => Uncaught
      | Some translations =>
          let po_files :=
            Py.sorted
              (filter (fun f => Py.endswith (py ".po") f.1 = true
                                ∧ Py.endswith (py ".bak") f.1 = false)
                 listing) in
          match fill_all po_files translations dry_run with
          | None => Uncaught
          | Some (written, total_filled, total_entries) =>
              Done written total_filled total_entries
          end
      end
  end.

End Main.

End Migrate.

(** ** verify_translations.py: parser and coverage check *)

Module Verify.

(** [_unescape] *)
Definition _unescape (s : str) : str :=
  Py.replace [BS; BS] [BS]
    (Py.replace [BS; DQ] [DQ]
       (Py.replace [BS; 110] [NL] s)).

(** [_read_str(lines, i)], given [lines[i]] and the lines after it: the
    string and how many of these lines the returned index passes over;
    [None] is the [ValueError] of [line.index]. *)
Definition _read_str (line : str) (rest : list str) : option (str * nat) :=
  first_quote ← Py.index DQ line;
  let val := Py.slice_to_last (first_quote + 1) line in
  Some (_unescape (Po.continued val rest), length (Po.continuation rest)).

Record entry : Type := Entry {
  msgid : option str;
  msgid_plural : option str;
  msgstr : option str;
  msgstr_plural : gmap N str
}.

Definition no_entry : entry := Entry None None None ∅.

Section Parse.

Variable uni_decimal : char -> option N.

Fixpoint scan_lines (skip : nat) (e : entry) (lines : list str)
  : option entry :=
  match lines with
  | [] => Some e
  | line :: rest =>
      match skip with
      | S k => scan_lines k e rest
      | O =>
          if Py.startswith Po.kw_msgid line then
            '(v, j) ← _read_str line rest;
            scan_lines j
              (Entry (Some v) (msgid_plural e) (msgstr e)
                 (msgstr_plural e)) rest
          else if Py.startswith Po.kw_msgid_plural line then
            '(v, j) ← _read_str line rest;
            scan_lines j
              (Entry (msgid e) (Some v) (msgstr e) (msgstr_plural e))
              rest
          else if Py.startswith Po.kw_msgstr_quote line then
            '(v, j) ← _read_str line rest;
            scan_lines j
              (Entry (msgid e) (msgid_plural e) (Some v)
                 (msgstr_plural e)) rest
          else
            match Po.match_msgstr_index uni_decimal line with
            | Some (digits, val) =>
                idx ← Po.int uni_decimal digits;
                let val := Po.continued val rest in
                scan_lines (length (Po.continuation rest))
                  (Entry (msgid e) (msgid_plural e) (msgstr e)
                     (<[idx := _unescape val]> (msgstr_plural e)))
                  rest
            | None => scan_lines 0 e rest
            end
      end
  end.

Definition store (e : entry) (translations : gmap key str)
  : gmap key str :=
  match msgid e with
  | None => translations
  | Some id =>
      if negb (nonempty id) then translations
      else
        match msgid_plural e with
        | Some pl =>
            <[KPair id pl := default [] (msgstr_plural e !! 0)]>
              translations
        | None =>
            match msgstr e with
            | Some v => <[KStr id := v]> translations
            | None => translations
            end
        end
  end.

Definition parse_block (translations : gmap key str) (block : str)
  : option (gmap key str) :=
  e ← scan_lines 0 no_entry (Py.splitlines (Py.strip block));
  Some (store e translations).

Fixpoint parse_blocks (translations : gmap key str) (blocks : list str)
  : option (gmap key str) :=
  match blocks with
  | [] => Some translations
  | block :: rest =>
      translations ← parse_block translations block;
      parse_blocks translations rest
  end.

(** [parse_po_entries] on the text of the file; [None] is an
    exception. *)
Definition parse_po_entries (content : str) : option (gmap key str) :=
  parse_blocks ∅ (fst <$> Po.split_blocks [] None (Py.strip content)).

End Parse.

(** The loop [for key, val in entries.items()] of [main], on the pair
    ([all_translated], [all_present]). *)
Definition merge_entries (acc : gmap key str * gset key)
  (entries : gmap key str) : gmap key str * gset key :=
  map_fold
    (fun key val acc =>
       let all_present := {[key]} ∪ acc.2 in
       if nonempty val && bool_decide (acc.1 !! key = None)
       then (<[key := val]> acc.1, all_present)
       else (acc.1, all_present))
    acc entries.

(** The loop [for po_file in po_files], on the tables of the files in
    the order of [po_files]. *)
Definition aggregate (tables : list (gmap key str))
  : gmap key str * gset key :=
  foldl merge_entries (∅, ∅) tables.

(** [missing_from_any] *)
Definition missing_from_any (backup : gmap key str) (all_present : gset key)
  : list key :=
  filter (fun k => k ∉ all_present) (map_to_list backup).*1.

(** [backup_translated] *)
Definition backup_translated (backup : gmap key str) : gmap key str :=
  filter (fun kv => nonempty kv.2 = true) backup.

(** [lost_translations] *)
Definition lost_translations (backup all_translated : gmap key str)
  : list key :=
  filter (fun k => nonempty (default [] (all_translated !! k)) = false)
    (map_to_list (backup_translated backup)).*1.

(** The end of [main]: the exit status after the report, given the
    parsed backup and the parsed current files in the order of
    [po_files]. *)
Definition verdict (backup : gmap key str) (tables : list (gmap key str))
  : nat :=
  let '(all_translated, all_present) := aggregate tables in
  match missing_from_any backup all_present,
        lost_translations backup all_translated with
  | [], [] => 0%nat
  | _, _ => 1%nat
  end.

Inductive outcome : Type :=
| Exit (status : nat)   (* [sys.exit(status)], or the normal end with 0 *)
| Uncaught.             (* an exception leaves [main] *)

Section Main.

Variable uni_decimal : char -> option N.

Fixpoint parse_all (files : list (str * str))
  : option (list (gmap key str)) :=
  match files with
  | [] => Some []
  | (_, content) :: rest =>
      entries ← parse_po_entries uni_decimal content;
      tables ← parse_all rest;
      Some (entries :: tables)
  end.

(** [main]: [backup_file] is the text of the backup when the file
    exists, [listing] the names and texts of the files of the locale
    directory. *)
Definition main (backup_file : option str) (listing : list (str * str))
  : outcome :=
  match backup_file with
  | None => Exit 1
  | Some text =>
      match parse_po_entries uni_decimal text with
      | None => Uncaught
      | Some backup =>
          let po_files :=
            Py.sorted
              (filter (fun f => Py.endswith (py ".po") f.1 = true
                                ∧ Py.endswith (py ".bak") f.1 = false)
                 listing) in
          match parse_all po_files with
          | None => Uncaught
          | Some tables => Exit (verdict backup tables)
          end
      end
  end.

End Main.

End Verify.

(** ** Statements of the specification, in its own words *)

Module Spec.

(** A table carries a non-empty value for a key. *)
Definition translated_in (k : key) (t : gmap key str) : Prop :=
  ∃ v, t !! k = Some v ∧ v ≠ [].

(** missing: a backup key absent from the union of the key sets of all
    current files. *)
Definition missing (backup : gmap key str) (tables : list (gmap key str))
  (k : key) : Prop :=
  k ∈ dom backup ∧ ∀ t, t ∈ tables → k ∉ dom t.

(** lost: a backup key that had a non-empty backup value and has no
    non-empty value in any current file. *)
Definition lost (backup : gmap key str) (tables : list (gmap key str))
  (k : key) : Prop :=
  translated_in k backup ∧ ∀ t, t ∈ tables → ¬ translated_in k t.

(** A value line that is exactly an empty declaration. *)
Definition empty_declaration (line : str) : Prop :=
  line = Po.empty_msgstr ∨ line = Po.empty_msgstr0.

(** The lines of a text, cut at line feeds, and the text of lines. *)
Fixpoint lines (s : str) : list str :=
  match s with
  | [] => [[]]
  | c :: t =>
      if c =? NL then [] :: lines t
      else match lines t with
           | l :: ls => (c :: l) :: ls
           | [] => [[c]]
           end
  end.

Fixpoint unlines (ls : list str) : str :=
  match ls with
  | [] => []
  | l :: rest =>
      match rest with
      | [] => l
      | _ :: _ => l ++ NL :: unlines rest
      end
  end.

(** The primary key the parsers read in a block: the last [msgid]
    assignment of the loop over its lines ([None] when the loop raises). *)
Definition parsed_msgid (uni_decimal : char -> option N) (block : str)
  : option (option str) :=
  Migrate.msgid <$>
    Migrate.scan_lines uni_decimal 0 Migrate.no_entry
      (Py.splitlines (Py.strip block)).

Definition verifier_msgid (uni_decimal : char -> option N) (block : str)
  : option (option str) :=
  Verify.msgid <$>
    Verify.scan_lines uni_decimal 0 Verify.no_entry
      (Py.splitlines (Py.strip block)).

(** The primary key the fill operation reads in a block: the unescaped
    group of the first match of the [msgid] pattern. *)
Definition fill_msgid (block : str) : option str :=
  (fun groups => Migrate._unescape (default [] (groups !! 0%nat)))
    <$> Re.search Migrate.msgid_pattern block.

(** The key under which the fill operation looks a block up, when it gets
    as far as looking. *)
Definition fill_key (block : str) : option key :=
  if negb (nonempty (Py.strip block)) || negb (Py.contains (py "msgid") block)
  then None
  else
    match fill_msgid block with
    | None => None
    | Some id =>
        if negb (nonempty id) then None
        else
          match Re.search Migrate.msgid_plural_pattern block with
          | Some pgroups =>
              Some (KPair id
                      (Migrate._unescape (default [] (pgroups !! 0%nat))))
          | None => Some (KStr id)
          end
    end.

(** What the replacement template of the fill operation expands to for a
    translation: the quote is written behind a backslash, every other
    character as it is. *)
Definition written_value (translation : str) : str :=
  flat_map (fun c => if c =? DQ then [BS; DQ] else [c]) translation.

(** A string with no backslash immediately followed by the letter n. *)
Fixpoint no_backslash_n (s : str) : bool :=
  match s with
  | [] => true
  | c :: t => negb ((c =? BS) && Py.startswith [110] t) && no_backslash_n t
  end.

End Spec.

(** ** Notions the statements use *)

Section Notions.
Import Spec Migrate GettextSplit.

(** The value a table offers for the aggregate: its value when non-empty. *)
Definition offered (k : key) (t : gmap key str) : option str :=
  match t !! k with
  | Some v => if nonempty v then Some v else None
  | None => None
  end.

(** The first non-empty value the tables offer for a key, in their order. *)
Fixpoint first_offered (k : key) (tables : list (gmap key str))
  : option str :=
  match tables with
  | [] => None
  | t :: rest =>
      match offered k t with
      | Some v => Some v
      | None => first_offered k rest
      end
  end.

(** The tables of two current files that translate the same key. *)
Definition file_a : gmap key str := {[ KStr (py "Save") := py "Guardar" ]}.

Definition file_b : gmap key str := {[ KStr (py "Save") := py "Salvar" ]}.

(** What [_escape] writes for one character. *)
Definition escape_char (c : char) : str :=
  if c =? BS then [BS; BS]
  else if c =? DQ then [BS; DQ]
  else if c =? NL then [BS; 110]
  else [c].

(** The escaped text after the first and after the second replacement of
    [_unescape]. *)
Definition escape_char1 (c : char) : str :=
  if c =? BS then [BS; BS] else if c =? DQ then [BS; DQ] else [c].

Definition escape_char2 (c : char) : str :=
  if c =? BS then [BS; BS] else [c].

(** No key of the table has an empty primary key. *)
Definition header_free (translations : gmap key str) : Prop :=
  ∀ k, k ∈ dom translations → primary k ≠ [].

(** The header of a PO file. *)
Definition header_block : str :=
  py "msgid " ++ [DQ; DQ; NL] ++ py "msgstr " ++ [DQ; DQ; NL]
  ++ [DQ] ++ py "Language: es\n" ++ [DQ].

(** The character before the position reached after the text [u]. *)
Definition prev_after (prev : option char) (u : str) : option char :=
  match last u with
  | Some c => Some c
  | None => prev
  end.

(** What the substitution of a whole-line pattern does to one line, and
    to the lines of a subject read from its start ([first]) or from inside
    its first line. *)
Definition rewrite_line_of (target : str) (groups : list str)
  (tmpl : list Re.titem) (l : str) : str :=
  if decide (l = target) then Re.expand tmpl target groups else l.

Definition rewrite_lines_of (target : str) (groups : list str)
  (tmpl : list Re.titem) (first : bool) (ls : list str) : list str :=
  match ls with
  | [] => []
  | l :: rest =>
      (if first then rewrite_line_of target groups tmpl l else l)
      :: map (rewrite_line_of target groups tmpl) rest
  end.

(** The line the fill operation writes for a translation. *)
Definition filled_msgstr (t : str) : str :=
  py "msgstr " ++ [DQ] ++ written_value t ++ [DQ].

Definition filled_msgstr0 (t : str) : str :=
  py "msgstr[0] " ++ [DQ] ++ written_value t ++ [DQ].

Definition fill_line (target new_line l : str) : str :=
  if decide (l = target) then new_line else l.

(** The value the fill operation would write: the lookup of the key of
    the block. *)
Definition looked_up (translations : gmap key str) (k : key) : str :=
  default [] (translations !! k).

(** The pattern and the new line for the kind of key. *)
Definition slot (k : key) : str :=
  match k with
  | KStr _ => Po.empty_msgstr
  | KPair _ _ => Po.empty_msgstr0
  end.

Definition filled_line (k : key) (t : str) : str :=
  match k with
  | KStr _ => filled_msgstr t
  | KPair _ _ => filled_msgstr0 t
  end.

Definition has_slot (k : key) (block : str) : bool :=
  match k with
  | KStr _ =>
      bool_decide (is_Some (Re.search (Po.whole_line Po.empty_msgstr []) block))
  | KPair _ _ =>
      bool_decide (is_Some (Re.search (Po.whole_line Po.empty_msgstr0 []) block))
  end.

(** A block with an empty value and a backup translation of two lines. *)
Definition greeting_block : str :=
  py "msgid " ++ [DQ] ++ py "greeting" ++ [DQ; NL] ++ py "msgstr " ++ [DQ; DQ].

Definition greeting : str := py "Hola" ++ [NL] ++ py "mundo".

Definition greeting_table : gmap key str := {[ KStr (py "greeting") := greeting ]}.

(** A block whose key continues on a second line, and the backup entry of
    the same key. *)
Definition hello_block : str :=
  py "msgid " ++ [DQ] ++ py "Hel" ++ [DQ; NL; DQ] ++ py "lo" ++ [DQ; NL]
  ++ py "msgstr " ++ [DQ; DQ].

Definition hello_backup : str :=
  py "msgid " ++ [DQ] ++ py "Hel" ++ [DQ; NL; DQ] ++ py "lo" ++ [DQ; NL]
  ++ py "msgstr " ++ [DQ] ++ py "Hola" ++ [DQ].

(** No match of the pattern starts anywhere in the subject, read after
    the character [prev]. *)
Fixpoint free (m : Re.matcher) (prev : option char) (s : str) : Prop :=
  match s with
  | [] => True
  | c :: t => m prev s = None ∧ free m (Some c) t
  end.

(** No match starts inside [u] when [u] is followed by [v]. *)
Fixpoint free_prefix (m : Re.matcher) (prev : option char) (u v : str)
  : Prop :=
  match u with
  | [] => True
  | c :: u' => m prev (u ++ v) = None ∧ free_prefix m (Some c) u' v
  end.

(** A label the replacement strings carry unchanged and no pattern can
    match into: no backslash and no opening parenthesis. *)
Definition plain_label (d : str) : Prop := BS ∉ d ∧ 40 ∉ d.

(** The text a bare form is replaced by, as the f-string builds it. *)
Definition bare_replacement (name d : str) : str :=
  with_domain (100 :: name) d.

(** The names the bare patterns of forms A and B look for. *)
Definition name_a : str := py "gettext(".

Definition name_b : str := py "ngettext(".

(** One substitution of [transform_content] for a plain label. *)
Definition pass (m : Re.matcher) (head d s : str) : str :=
  Re.sub_from m (map Re.TLit (with_domain head d)) 0 None s.

(** The replacement strings of forms C, D, A and B up to the label. *)
Definition head_c : str := py "Gettext.dgettext(StoryarnWeb.Gettext, ".

Definition head_d : str := py "Gettext.dngettext(StoryarnWeb.Gettext, ".

Definition head_a : str := py "dgettext(".

Definition head_b : str := py "dngettext(".

(** One substitution of [transform_content] resumed in the middle of a
    text, after the character [prev]. *)
Definition pass_after (prev : char) (m : Re.matcher) (head d s : str)
  : str :=
  Re.sub_from m (map Re.TLit (with_domain head d)) 0 (Some prev) s.

(** The four substitutions on the text that follows the opening
    parenthesis of a call (the last one resumes after the blank that ends
    the replacement). *)
Definition transform_after_call (uni_alnum : char -> bool) (d post : str)
  : str :=
  pass_after 32 (RE_NGETTEXT uni_alnum) head_b d
    (pass_after 40 (RE_GETTEXT uni_alnum) head_a d
       (pass_after 40 (RE_MOD_NGETTEXT uni_alnum) head_d d
          (pass_after 40 (RE_MOD_GETTEXT uni_alnum) head_c d post))).

(** The arguments of a qualified call whose first argument is another
    module. *)
Definition other_args : str :=
  py "Other, " ++ [DQ] ++ py "x" ++ [DQ] ++ py ")".

(** The prefixes of the rules are pairwise incomparable: none is a prefix
    of another. *)
Fixpoint unshadowed (rules : list (str * str)) : bool :=
  match rules with
  | [] => true
  | r :: rest =>
      forallb (fun r' => negb (Py.startswith r.1 r'.1)
                         && negb (Py.startswith r'.1 r.1)) rest
      && unshadowed rest
  end.

(** White space of the ASCII range. *)
Definition ascii_space (c : char) : bool := Py.isspace c && (c <? 128).

(** The locale handle and the comma, as forms C and D expect them. *)
Definition handle : str := py "StoryarnWeb.Gettext,".

(** An entry of the back-fill parser, as an entry of the verifier. *)
Definition to_verify (e : Migrate.entry) : Verify.entry :=
  Verify.Entry (Migrate.msgid e) (Migrate.msgid_plural e)
    (Migrate.msgstr e) (Migrate.msgstr_plural e).

(** The text of an entry on two lines: the key line and the value line
    around raw bodies, and an entry with its key and value escaped. *)
Definition key_line (a : str) : str := py "msgid " ++ [DQ] ++ a ++ [DQ].

Definition value_line (b : str) : str := py "msgstr " ++ [DQ] ++ b ++ [DQ].

Definition entry_text (id v : str) : str :=
  key_line (Migrate._escape id) ++ NL :: value_line (Migrate._escape v).

(** A string [str.splitlines] does not cut, and a string it cuts at line
    feeds only. *)
Definition one_line (s : str) : Prop :=
  Forall (fun c => Py.is_linebreak c = false) s.

Definition breaks_at_newlines (s : str) : Prop :=
  Forall (fun c => Py.is_linebreak c = true → c = NL) s.

(** A line on which a parser raises: a key line without any quote, or an
    indexed value line whose index has more digits than [int] converts. *)
Definition raising_line (uni_decimal : char -> option N) (line : str)
  : Prop :=
  ((Py.startswith Po.kw_msgid line = true
    ∨ Py.startswith Po.kw_msgid_plural line = true)
   ∧ DQ ∉ line)
  ∨ ∃ digits val,
      Po.match_msgstr_index uni_decimal line = Some (digits, val)
      ∧ Po.INT_MAX_STR_DIGITS < N.of_nat (length digits).

(** A block whose value opens with an empty first line and goes on over
    two continuation lines, the table that offers another value for its
    key, and the block the fill operation makes of it. *)
Definition title_block : str :=
  py "msgid " ++ [DQ] ++ py "Title" ++ [DQ; NL]
  ++ py "msgstr " ++ [DQ; DQ; NL]
  ++ [DQ] ++ py "old line\n" ++ [DQ; NL]
  ++ [DQ] ++ py "more" ++ [DQ].

Definition title_table : gmap key str :=
  {[ KStr (py "Title") := py "Nuevo" ]}.

Definition title_block_filled : str :=
  py "msgid " ++ [DQ] ++ py "Title" ++ [DQ; NL]
  ++ py "msgstr " ++ [DQ] ++ py "Nuevo" ++ [DQ; NL]
  ++ [DQ] ++ py "old line\n" ++ [DQ; NL]
  ++ [DQ] ++ py "more" ++ [DQ].

(** The header of a PO file with a blank after the closing quote of its
    key line. *)
Definition spaced_header_block : str :=
  py "msgid " ++ [DQ; DQ; 32; NL] ++ py "msgstr " ++ [DQ; DQ; NL]
  ++ [DQ] ++ py "Language: es\n" ++ [DQ].

End Notions.

(** * Properties *)

(** ** The domain resolver *)

Lemma startswith_prefix (a b : str) :
  Py.startswith a b = true ↔ a `prefix_of` b.
Proof.
  revert b. induction a as [|x a IH]; intros b; simpl.
  - split; [intros _; apply prefix_nil | done].
  - destruct b as [|y b].
    + split; [done | intros H; by apply prefix_nil_not in H].
    + rewrite andb_true_iff, N.eqb_eq, IH. split.
      * intros [-> H]. by apply prefix_cons.
      * intros H. split; [by apply prefix_cons_inv_1 in H
                         | by apply prefix_cons_inv_2 in H].
Qed.

Lemma startswith_not_prefix (a b : str) :
  Py.startswith a b = false ↔ ¬ a `prefix_of` b.
Proof.
  rewrite <- startswith_prefix. destruct (Py.startswith a b); naive_solver.
Qed.

Section Resolver.
Import GettextSplit.

Lemma get_domain_in_Some rules p d :
  get_domain_in rules p = Some d ↔
  ∃ before pre after,
    rules = before ++ (pre, d) :: after
    ∧ pre `prefix_of` p
    ∧ Forall (fun r => ¬ r.1 `prefix_of` p) before.
Proof.
  induction rules as [|[pre' d'] rules IH]; simpl.
  - split; [done | intros (b & ? & ? & H & _); by destruct b].
  - destruct (Py.startswith pre' p) eqn:E.
    + apply startswith_prefix in E. split.
      * intros [= <-]. exists [], pre', rules. by repeat split.
      * intros (b & pre & after & H & Hp & Hb).
        destruct b as [|r b]; simplify_eq/=; [done|].
        by apply Forall_cons_1 in Hb as [Hb _].
    + apply startswith_not_prefix in E. rewrite IH. split.
      * intros (b & pre & after & -> & Hp & Hb).
        exists ((pre', d') :: b), pre, after. repeat split; [done|].
        by constructor.
      * intros (b & pre & after & H & Hp & Hb).
        destruct b as [|r b]; simplify_eq/=; [done|].
        apply Forall_cons_1 in Hb as [_ Hb]. by exists b, pre, after.
Qed.

Lemma get_domain_in_None rules p :
  get_domain_in rules p = None ↔
  Forall (fun r => ¬ r.1 `prefix_of` p) rules.
Proof.
  induction rules as [|[pre' d'] rules IH]; simpl.
  - split; [by constructor | done].
  - destruct (Py.startswith pre' p) eqn:E.
    + apply startswith_prefix in E. split; [done|].
      intros H. by apply Forall_cons_1 in H as [H _].
    + apply startswith_not_prefix in E. rewrite IH. split.
      * intros H. by constructor.
      * intros H. by apply Forall_cons_1 in H as [_ H].
Qed.

(** C8: [get_domain] returns the label of the first rule of the routing
    table, in definition order, whose prefix is a prefix of the path: a
    label [d] is returned exactly when the table splits into rules whose
    prefixes are not prefixes of the path, then a rule with label [d]
    whose prefix is one; and nothing is returned exactly when no rule of
    the table has a prefix of the path. *)
Theorem get_domain_first_match (p : str) :
  (∀ d, get_domain p = Some d ↔
        ∃ before pre after,
          DOMAIN_RULES = before ++ (pre, d) :: after
          ∧ pre `prefix_of` p
          ∧ Forall (fun r => ¬ r.1 `prefix_of` p) before)
  ∧ (get_domain p = None ↔
     Forall (fun r => ¬ r.1 `prefix_of` p) DOMAIN_RULES).
Proof.
  split; [intros d; apply get_domain_in_Some | apply get_domain_in_None].
Qed.

End Resolver.

(** ** The verifier *)

Section Verifier.
Import Verify.

Lemma offered_Some k t v :
  offered k t = Some v ↔ t !! k = Some v ∧ v ≠ [].
Proof.
  unfold offered. destruct (t !! k) as [[|c w]|]; simpl; naive_solver.
Qed.

Lemma offered_None k t : offered k t = None ↔ ¬ Spec.translated_in k t.
Proof.
  unfold offered, Spec.translated_in.
  destruct (t !! k) as [[|c w]|]; simpl; naive_solver.
Qed.

Lemma merge_entries_spec acc entries :
  (∀ k, (merge_entries acc entries).1 !! k =
        match acc.1 !! k with
        | Some v => Some v
        | None => offered k entries
        end)
  ∧ (merge_entries acc entries).2 = dom entries ∪ acc.2.
Proof.
  unfold merge_entries.
  apply (map_fold_weak_ind
           (fun r m =>
              (∀ k, r.1 !! k = match acc.1 !! k with
                               | Some v => Some v
                               | None => offered k m
                               end)
              ∧ r.2 = dom m ∪ acc.2)).
  - split.
    + intros k. unfold offered. rewrite lookup_empty. by destruct (acc.1 !! k).
    + set_solver.
  - intros i x m r Hi [IH1 IH2]. split.
    + intros k. unfold offered.
      destruct (decide (i = k)) as [->|Hne].
      * rewrite lookup_insert_eq. specialize (IH1 k).
        unfold offered in IH1. rewrite Hi in IH1.
        destruct (nonempty x) eqn:Hx; simpl.
        -- case_bool_decide as Hr; simpl.
           ++ rewrite lookup_insert_eq. rewrite Hr in IH1.
              by destruct (acc.1 !! k).
           ++ rewrite IH1. destruct (acc.1 !! k) eqn:E; [done|].
              by rewrite IH1 in Hr.
        -- rewrite IH1. by destruct (acc.1 !! k).
      * rewrite (lookup_insert_ne m) by done.
        transitivity (r.1 !! k); [|apply IH1].
        destruct (nonempty x && bool_decide (r.1 !! i = None)); simpl;
          [by rewrite lookup_insert_ne | done].
    + rewrite dom_insert_L.
      destruct (nonempty x && bool_decide (r.1 !! i = None)); simpl;
        rewrite IH2; set_solver.
Qed.

Lemma foldl_merge_entries acc tables :
  (∀ k, (foldl merge_entries acc tables).1 !! k =
        match acc.1 !! k with
        | Some v => Some v
        | None => first_offered k tables
        end)
  ∧ (∀ k, k ∈ (foldl merge_entries acc tables).2 ↔
          k ∈ acc.2 ∨ ∃ t, t ∈ tables ∧ k ∈ dom t).
Proof.
  revert acc. induction tables as [|t tables IH]; intros acc; simpl.
  - split; [intros k; by destruct (acc.1 !! k) |].
    intros k. split; [by left | intros [?|(t & Ht & _)]; [done|]].
    by apply elem_of_nil in Ht.
  - destruct (IH (merge_entries acc t)) as [IH1 IH2].
    destruct (merge_entries_spec acc t) as [M1 M2]. split.
    + intros k. rewrite IH1, M1.
      destruct (acc.1 !! k); [done|]. by destruct (offered k t).
    + intros k. rewrite IH2, M2, elem_of_union. split.
      * intros [[H|H]|(t' & Ht' & H)].
        -- right. exists t. split; [apply elem_of_cons; by left | done].
        -- by left.
        -- right. exists t'. split; [apply elem_of_cons; by right | done].
      * intros [H|(t' & Ht' & H)]; [left; by right|].
        apply elem_of_cons in Ht' as [->|Ht']; [left; by left|].
        right. by exists t'.
Qed.

Lemma aggregate_lookup tables k :
  (aggregate tables).1 !! k = first_offered k tables.
Proof.
  unfold aggregate. destruct (foldl_merge_entries (∅, ∅) tables) as [H _].
  rewrite H. simpl. by rewrite lookup_empty.
Qed.

Lemma aggregate_present tables k :
  k ∈ (aggregate tables).2 ↔ ∃ t, t ∈ tables ∧ k ∈ dom t.
Proof.
  unfold aggregate. destruct (foldl_merge_entries (∅, ∅) tables) as [_ H].
  rewrite H. simpl. set_solver.
Qed.

Lemma first_offered_app k before after :
  Forall (fun t => ¬ Spec.translated_in k t) before →
  first_offered k (before ++ after) = first_offered k after.
Proof.
  induction 1 as [|t before Ht _ IH]; simpl; [done|].
  apply offered_None in Ht. by rewrite Ht.
Qed.

(** C2, as the code has it: in the aggregate view built over the tables of
    the current files, taken in the order of the sorted file names, the
    value of a key is the non-empty value of the FIRST file that carries
    one; no later file overwrites it. *)
Theorem aggregate_first_nonempty_wins
  (tables before after : list (gmap key str)) (t : gmap key str)
  (k : key) (v : str) :
  tables = before ++ t :: after →
  Forall (fun t' => ¬ Spec.translated_in k t') before →
  t !! k = Some v → v ≠ [] →
  (aggregate tables).1 !! k = Some v.
Proof.
  intros -> Hb Hk Hv. rewrite aggregate_lookup, first_offered_app by done.
  simpl. assert (offered k t = Some v) as -> by by apply offered_Some.
  done.
Qed.

Lemma aggregate_first_nonempty_wins_witness :
  (aggregate [file_a; file_b]).1 !! KStr (py "Save") = Some (py "Guardar").
Proof.
  apply (aggregate_first_nonempty_wins [file_a; file_b] [] [file_b] file_a).
  - reflexivity.
  - constructor.
  - reflexivity.
  - discriminate.
Defined.

(** C2 as stated fails: with two files that both carry a non-empty value
    for the key, the aggregate holds the value of the first file, not that
    of the last. *)
Lemma aggregate_last_does_not_win :
  file_a !! KStr (py "Save") = Some (py "Guardar")
  ∧ file_b !! KStr (py "Save") = Some (py "Salvar")
  ∧ (aggregate [file_a; file_b]).1 !! KStr (py "Save") = Some (py "Guardar")
  ∧ (aggregate [file_a; file_b]).1 !! KStr (py "Save") ≠ Some (py "Salvar").
Proof.
  split; [reflexivity|]. split; [reflexivity|].
  split; [vm_compute; reflexivity | vm_compute; discriminate].
Qed.

Lemma first_offered_nonempty k tables v :
  first_offered k tables = Some v → v ≠ [].
Proof.
  induction tables as [|t tables IH]; simpl; [done|].
  destruct (offered k t) as [w|] eqn:E; [|done].
  intros [= <-]. by apply offered_Some in E as [_ ?].
Qed.

Lemma first_offered_None k tables :
  first_offered k tables = None ↔
  ∀ t, t ∈ tables → ¬ Spec.translated_in k t.
Proof.
  induction tables as [|t tables IH]; simpl.
  - split; [intros _ t Ht; by apply elem_of_nil in Ht | done].
  - destruct (offered k t) as [w|] eqn:E.
    + split; [done|]. intros H. apply offered_Some in E.
      exfalso. apply (H t); [apply elem_of_cons; by left|]. by exists w.
    + apply offered_None in E. rewrite IH. split.
      * intros H t' Ht'. apply elem_of_cons in Ht' as [->|Ht']; [done|].
        by apply H.
      * intros H t' Ht'. apply H, elem_of_cons. by right.
Qed.

Lemma keys_of_map (m : gmap key str) k :
  k ∈ (map_to_list m).*1 ↔ k ∈ dom m.
Proof.
  rewrite elem_of_dom, list_elem_of_fmap. split.
  - intros ([k' v] & -> & H). apply elem_of_map_to_list in H. by exists v.
  - intros [v H]. exists (k, v). split; [done|].
    by apply elem_of_map_to_list.
Qed.

Lemma elem_of_missing_from_any backup tables k :
  k ∈ missing_from_any backup (aggregate tables).2 ↔
  Spec.missing backup tables k.
Proof.
  unfold missing_from_any, Spec.missing.
  rewrite list_elem_of_filter, keys_of_map, aggregate_present.
  naive_solver.
Qed.

Lemma elem_of_lost_translations backup tables k :
  k ∈ lost_translations backup (aggregate tables).1 ↔
  Spec.lost backup tables k.
Proof.
  unfold lost_translations, Spec.lost, backup_translated.
  rewrite list_elem_of_filter, keys_of_map, elem_of_dom, aggregate_lookup.
  assert (nonempty (default [] (first_offered k tables)) = false
          ↔ first_offered k tables = None) as ->.
  { destruct (first_offered k tables) as [w|] eqn:E; simpl; [|done].
    apply first_offered_nonempty in E. by destruct w. }
  rewrite first_offered_None.
  assert (is_Some (filter (fun kv : key * str => nonempty kv.2 = true)
                     backup !! k)
          ↔ Spec.translated_in k backup) as ->; [|tauto].
  unfold is_Some, Spec.translated_in.
  setoid_rewrite map_lookup_filter_Some. simpl. split.
  - intros (v & Hv & Hn). exists v. split; [done|]. by destruct v.
  - intros (v & Hv & Hn). exists v. split; [done|]. by destruct v.
Qed.

Lemma list_nonempty_elem {A} (l : list A) : l ≠ [] ↔ ∃ x, x ∈ l.
Proof.
  destruct l as [|x l].
  - split; [done | intros [x Hx]; by apply elem_of_nil in Hx].
  - split; [intros _; exists x; apply elem_of_cons; by left | done].
Qed.

Lemma verdict_defect_lists backup tables :
  verdict backup tables =
  match missing_from_any backup (aggregate tables).2,
        lost_translations backup (aggregate tables).1 with
  | [], [] => 0%nat
  | _, _ => 1%nat
  end.
Proof. unfold verdict. by destruct (aggregate tables). Qed.

(** C5: the verifier ends with a non-zero exit status exactly when a
    backup key is missing (in no current file's key set) or lost (non-empty
    in the backup, with no non-empty value in any current file); with no
    such key the status is 0. *)
Theorem verdict_iff_defects
  (backup : gmap key str) (tables : list (gmap key str)) :
  (verdict backup tables ≠ 0%nat ↔
     (∃ k, Spec.missing backup tables k) ∨ (∃ k, Spec.lost backup tables k))
  ∧ (verdict backup tables = 0%nat ↔
     (∀ k, ¬ Spec.missing backup tables k)
     ∧ (∀ k, ¬ Spec.lost backup tables k)).
Proof.
  rewrite verdict_defect_lists.
  setoid_rewrite <- elem_of_missing_from_any.
  setoid_rewrite <- elem_of_lost_translations.
  rewrite <- !list_nonempty_elem.
  destruct (missing_from_any backup (aggregate tables).2) as [|m ms],
    (lost_translations backup (aggregate tables).1) as [|l ls].
  - split; [split; [done | intros [?|?]; done] |].
    split; [|done]. intros _.
    split; intros k Hk; by apply elem_of_nil in Hk.
  - split; [split; [intros _; by right | done] |].
    split; [done|]. intros [_ H]. exfalso. apply (H l), elem_of_cons. by left.
  - split; [split; [intros _; by left | done] |].
    split; [done|]. intros [H _]. exfalso. apply (H m), elem_of_cons. by left.
  - split; [split; [intros _; by left | done] |].
    split; [done|]. intros [H _]. exfalso. apply (H m), elem_of_cons. by left.
Qed.

(** With the backup present and every file parsed, [main] exits with this
    status. *)
Lemma main_exits_with_verdict uni_decimal text listing backup tables :
  parse_po_entries uni_decimal text = Some backup →
  parse_all uni_decimal
    (Py.sorted
       (filter (fun f : str * str =>
                  Py.endswith (py ".po") f.1 = true
                  ∧ Py.endswith (py ".bak") f.1 = false) listing))
  = Some tables →
  main uni_decimal (Some text) listing = Exit (verdict backup tables).
Proof. intros Hb Ht. unfold main. by rewrite Hb, Ht. Qed.

End Verifier.

(** ** The escape codec *)

Section Codec.
Import Migrate.

Lemma replace_from_skip old new (u r : str) :
  Py.replace_from old new (length u) (u ++ r) = Py.replace_from old new 0 r.
Proof. induction u as [|c u IH]; [done | apply IH]. Qed.

Lemma replace_from_pair a b new (r : str) :
  Py.replace_from [a; b] new 0 (a :: b :: r)
  = new ++ Py.replace_from [a; b] new 0 r.
Proof. simpl. by rewrite !N.eqb_refl. Qed.

Lemma replace_from_keep old new c (t : str) :
  Py.startswith old (c :: t) = false →
  Py.replace_from old new 0 (c :: t) = c :: Py.replace_from old new 0 t.
Proof. intros H. simpl Py.replace_from. by rewrite H. Qed.

(** Replacing one character is a character-wise map. *)
Lemma replace_char a new (s : str) :
  Py.replace [a] new s = flat_map (fun c => if c =? a then new else [c]) s.
Proof.
  unfold Py.replace. induction s as [|c s IH]; [done|].
  simpl. rewrite (N.eqb_sym a c). destruct (c =? a); simpl; by rewrite IH.
Qed.

Lemma flat_map_flat_map {A B C} (f : A → list B) (g : B → list C) l :
  flat_map g (flat_map f l) = flat_map (fun x => flat_map g (f x)) l.
Proof.
  induction l as [|x l IH]; simpl; [done|].
  by rewrite flat_map_app, IH.
Qed.

Lemma escape_char_wise (x : str) : _escape x = flat_map escape_char x.
Proof.
  unfold _escape. rewrite !replace_char, !flat_map_flat_map.
  apply flat_map_ext. intros c. unfold escape_char.
  destruct (N.eqb_spec c BS) as [->|H1]; [done|].
  destruct (N.eqb_spec c DQ) as [->|H2]; [done|].
  simpl. destruct (N.eqb_spec c DQ); [done|]. simpl.
  destruct (N.eqb_spec c NL) as [->|H3]; [done|]. by rewrite app_nil_r.
Qed.

Lemma startswith_char a (s : str) :
  Py.startswith [a] s = match s with [] => false | b :: _ => a =? b end.
Proof. destruct s; simpl; [done | by rewrite andb_true_r]. Qed.

Lemma startswith_pair a b c (s : str) :
  Py.startswith [a; b] (c :: s) = (a =? c) && Py.startswith [b] s.
Proof. done. Qed.

Lemma no_backslash_n_cons c (t : str) :
  Spec.no_backslash_n (c :: t)
  = negb ((c =? BS) && Py.startswith [110] t) && Spec.no_backslash_n t.
Proof. done. Qed.

Lemma unescape_pass1 (x : str) :
  Spec.no_backslash_n x = true →
  Py.replace_from [BS; 110] [NL] 0 (flat_map escape_char x)
  = flat_map escape_char1 x.
Proof.
  induction x as [|c x IH]; [done|].
  rewrite no_backslash_n_cons, andb_true_iff, negb_true_iff.
  intros [Hc Hx]. specialize (IH Hx).
  change (flat_map escape_char (c :: x))
    with (escape_char c ++ flat_map escape_char x).
  change (flat_map escape_char1 (c :: x))
    with (escape_char1 c ++ flat_map escape_char1 x).
  unfold escape_char at 1, escape_char1 at 1.
  destruct (N.eqb_spec c BS) as [->|?].
  - (* backslash: the second one must not pair with a following n *)
    change (Py.startswith [110] x = false) in Hc.
    change ([BS; BS] ++ flat_map escape_char x)
      with (BS :: BS :: flat_map escape_char x).
    rewrite replace_from_keep by done.
    rewrite replace_from_keep; [by rewrite IH|].
    rewrite startswith_pair, startswith_char, N.eqb_refl, andb_true_l.
    rewrite startswith_char in Hc.
    destruct x as [|d x]; [done|]. cbn [flat_map]. unfold escape_char at 1.
    destruct (N.eqb_spec d BS) as [->|?]; [done|].
    destruct (N.eqb_spec d DQ) as [->|?]; [done|].
    destruct (N.eqb_spec d NL) as [->|?]; [done|]. done.
  - destruct (N.eqb_spec c DQ) as [->|?]; [simpl; by rewrite IH|].
    destruct (N.eqb_spec c NL) as [->|?]; [simpl; by rewrite IH|].
    simpl app. rewrite replace_from_keep; [by rewrite IH|].
    rewrite startswith_pair. by destruct (N.eqb_spec BS c).
Qed.

Lemma unescape_pass2 (x : str) :
  Py.replace_from [BS; DQ] [DQ] 0 (flat_map escape_char1 x)
  = flat_map escape_char2 x.
Proof.
  induction x as [|c x IH]; [done|].
  change (flat_map escape_char1 (c :: x))
    with (escape_char1 c ++ flat_map escape_char1 x).
  change (flat_map escape_char2 (c :: x))
    with (escape_char2 c ++ flat_map escape_char2 x).
  unfold escape_char1 at 1, escape_char2 at 1.
  destruct (N.eqb_spec c BS) as [->|?].
  - (* backslash: what follows the doubled backslash never starts with a
       bare quote *)
    change ([BS; BS] ++ flat_map escape_char1 x)
      with (BS :: BS :: flat_map escape_char1 x).
    rewrite replace_from_keep by done.
    rewrite replace_from_keep; [by rewrite IH|].
    rewrite startswith_pair, startswith_char, N.eqb_refl, andb_true_l.
    destruct x as [|d x]; [done|]. cbn [flat_map]. unfold escape_char1 at 1.
    destruct (N.eqb_spec d BS) as [->|?]; [done|].
    destruct (N.eqb_spec d DQ) as [->|?]; [done|]. cbn [app].
    by destruct (N.eqb_spec DQ d).
  - destruct (N.eqb_spec c DQ) as [->|?]; [simpl; by rewrite IH|].
    simpl app. rewrite replace_from_keep; [by rewrite IH|].
    rewrite startswith_pair. by destruct (N.eqb_spec BS c).
Qed.

Lemma unescape_pass3 (x : str) :
  Py.replace_from [BS; BS] [BS] 0 (flat_map escape_char2 x) = x.
Proof.
  induction x as [|c x IH]; [done|].
  change (flat_map escape_char2 (c :: x))
    with (escape_char2 c ++ flat_map escape_char2 x).
  unfold escape_char2 at 1. destruct (N.eqb_spec c BS) as [->|?].
  - simpl. by rewrite IH.
  - simpl app. rewrite replace_from_keep; [by rewrite IH|].
    rewrite startswith_pair. by destruct (N.eqb_spec BS c).
Qed.

(** C1, as the code has it: on every string with no backslash immediately
    followed by the letter n, [_unescape] undoes [_escape]; and on the
    escaped form of such a string, [_escape] undoes [_unescape]. *)
Theorem unescape_escape (x : str) :
  Spec.no_backslash_n x = true →
  _unescape (_escape x) = x
  ∧ _escape (_unescape (_escape x)) = _escape x.
Proof.
  intros H.
  assert (_unescape (_escape x) = x) as E.
  { rewrite escape_char_wise. unfold _unescape, Py.replace.
    by rewrite unescape_pass1, unescape_pass2, unescape_pass3. }
  by rewrite E.
Qed.

Lemma unescape_escape_witness :
  _unescape (_escape ([BS; DQ; NL] ++ py "a\b"))
  = [BS; DQ; NL] ++ py "a\b"
  ∧ _escape (_unescape (_escape ([BS; DQ; NL] ++ py "a\b")))
    = _escape ([BS; DQ; NL] ++ py "a\b").
Proof. apply (unescape_escape ([BS; DQ; NL] ++ py "a\b")). reflexivity. Defined.

(** C1 as stated fails in both directions: a lone quote is not what
    [_escape] gives back after [_unescape], and a backslash followed by the
    letter n is not what [_unescape] gives back after [_escape]. *)
Lemma escape_unescape_not_inverse :
  _escape (_unescape [DQ]) ≠ [DQ]
  ∧ _unescape (_escape [BS; 110]) ≠ [BS; 110].
Proof. split; vm_compute; discriminate. Qed.

End Codec.

(** ** Header blocks *)

Section Header.

Lemma header_free_empty : header_free ∅.
Proof. intros k Hk. by rewrite dom_empty_L in Hk. Qed.

Lemma header_free_insert k v translations :
  primary k ≠ [] → header_free translations →
  header_free (<[k := v]> translations).
Proof.
  intros Hk H k'. rewrite dom_insert_L, elem_of_union, elem_of_singleton.
  intros [->|?]; [done | by apply H].
Qed.

Lemma nonempty_true (s : str) : negb (nonempty s) = false → s ≠ [].
Proof. by destruct s. Qed.

Lemma migrate_store_header_free e translations :
  header_free translations → header_free (Migrate.store e translations).
Proof.
  intros H. unfold Migrate.store.
  destruct (Migrate.msgid e) as [id|]; [|done].
  destruct (negb (nonempty id)) eqn:Hid; [done|].
  apply nonempty_true in Hid.
  destruct (Migrate.msgid_plural e); [by apply header_free_insert|].
  destruct (Migrate.msgstr e); [by apply header_free_insert | done].
Qed.

Lemma verify_store_header_free e translations :
  header_free translations → header_free (Verify.store e translations).
Proof.
  intros H. unfold Verify.store.
  destruct (Verify.msgid e) as [id|]; [|done].
  destruct (negb (nonempty id)) eqn:Hid; [done|].
  apply nonempty_true in Hid.
  destruct (Verify.msgid_plural e); [by apply header_free_insert|].
  destruct (Verify.msgstr e); [by apply header_free_insert | done].
Qed.

Lemma migrate_parse_blocks_header_free uni blocks translations result :
  header_free translations →
  Migrate.parse_blocks uni translations blocks = Some result →
  header_free result.
Proof.
  revert translations.
  induction blocks as [|b blocks IH]; intros translations H; simpl.
  - by intros [= <-].
  - unfold Migrate.parse_block.
    destruct (Migrate.scan_lines uni 0 Migrate.no_entry _) as [e|]; [|done].
    simpl. apply IH. by apply migrate_store_header_free.
Qed.

Lemma verify_parse_blocks_header_free uni blocks translations result :
  header_free translations →
  Verify.parse_blocks uni translations blocks = Some result →
  header_free result.
Proof.
  revert translations.
  induction blocks as [|b blocks IH]; intros translations H; simpl.
  - by intros [= <-].
  - unfold Verify.parse_block.
    destruct (Verify.scan_lines uni 0 Verify.no_entry _) as [e|]; [|done].
    simpl. apply IH. by apply verify_store_header_free.
Qed.

(** C9 fails on the code: a header whose key line has a blank after the
    closing quote is a header for the fill operation, which reads the
    empty key and returns the block with both counts 0, but not for the
    parsers: they cut the line one character before its end, read the
    closing quote as the key and store the header under it.  The header
    without the blank is ignored by all of them. *)
Theorem header_with_trailing_blank_stored
  (uni_decimal : char -> option N) (translations : gmap key str) :
  Spec.fill_msgid spaced_header_block = Some []
  ∧ Migrate._fill_block spaced_header_block translations
    = Some (spaced_header_block, 0, 0)%nat
  ∧ Spec.parsed_msgid uni_decimal spaced_header_block = Some (Some [DQ])
  ∧ Spec.verifier_msgid uni_decimal spaced_header_block = Some (Some [DQ])
  ∧ Migrate.parse_po uni_decimal spaced_header_block
    = Some {[ KStr [DQ] := py "Language: es" ++ [NL] ]}
  ∧ Verify.parse_po_entries uni_decimal spaced_header_block
    = Some {[ KStr [DQ] := py "Language: es" ++ [NL] ]}
  ∧ Migrate.parse_po uni_decimal header_block = Some ∅
  ∧ Verify.parse_po_entries uni_decimal header_block = Some ∅
  ∧ Migrate._fill_block header_block translations
    = Some (header_block, 0, 0)%nat.
Proof. repeat split; vm_compute; reflexivity. Qed.

End Header.

(** ** The substitution engine *)

Section Engine.

Lemma prev_after_cons prev c u :
  prev_after prev (c :: u) = prev_after (Some c) u.
Proof.
  unfold prev_after. destruct u as [|d u]; [done|].
  change (last (c :: d :: u)) with (last (d :: u)).
  destruct (last (d :: u)) eqn:E; [done|]. by apply last_None in E.
Qed.

Lemma sub_from_skip m tmpl prev (u r : str) :
  Re.sub_from m tmpl (length u) prev (u ++ r)
  = Re.sub_from m tmpl 0 (prev_after prev u) r.
Proof.
  revert prev. induction u as [|c u IH]; intros prev; [done|].
  simpl. by rewrite IH, prev_after_cons.
Qed.

Lemma startswith_app (p s : str) :
  Py.startswith p s = true → s = p ++ drop (length p) s.
Proof.
  intros H. apply startswith_prefix in H as [k ->].
  by rewrite drop_app_length.
Qed.

(** One step of the scan at a match and away from one. *)
Lemma sub_from_match m tmpl prev (s : str) len groups :
  m prev s = Some (len, groups) → (0 < len ≤ length s)%nat →
  Re.sub_from m tmpl 0 prev s
  = Re.expand tmpl (take len s) groups
    ++ Re.sub_from m tmpl 0 (prev_after prev (take len s)) (drop len s).
Proof.
  intros Hm Hlen. destruct s as [|c t]; [simpl in Hlen; lia|].
  simpl Re.sub_from. rewrite Hm. f_equal.
  destruct len as [|len]; [lia|]. simpl in Hlen.
  rewrite firstn_cons, skipn_cons, prev_after_cons.
  replace (S len - 1)%nat with (length (take len t))
    by (rewrite length_take; lia).
  rewrite <- (take_drop len t) at 2. apply sub_from_skip.
Qed.

Lemma sub_from_no_match m tmpl prev c (t : str) :
  m prev (c :: t) = None →
  Re.sub_from m tmpl 0 prev (c :: t)
  = c :: Re.sub_from m tmpl 0 (Some c) t.
Proof. intros Hm. simpl. by rewrite Hm. Qed.

End Engine.

(** ** Lines *)

Section Lines.
Import Spec.

Lemma lines_not_nil (s : str) : lines s ≠ [].
Proof.
  induction s as [|c s IH]; simpl; [done|].
  destruct (c =? NL); [done|]. by destruct (lines s).
Qed.

Lemma unlines_cons l ls :
  ls ≠ [] → unlines (l :: ls) = l ++ NL :: unlines ls.
Proof. by destruct ls. Qed.

Lemma unlines_lines (s : str) : unlines (lines s) = s.
Proof.
  induction s as [|c s IH]; [done|]. simpl lines.
  destruct (c =? NL) eqn:E.
  - apply N.eqb_eq in E as ->.
    rewrite unlines_cons by apply lines_not_nil. by rewrite IH.
  - destruct (lines s) as [|l ls] eqn:El; [by apply lines_not_nil in El|].
    rewrite <- IH. destruct ls as [|l2 ls]; [reflexivity|]. rewrite !unlines_cons by done. reflexivity.
Qed.

Lemma lines_plain (l : str) : NL ∉ l → lines l = [l].
Proof.
  induction l as [|c l IH]; [done|]. intros H.
  apply not_elem_of_cons in H as [Hc Hl]. simpl.
  destruct (N.eqb_spec c NL); [done|]. by rewrite IH.
Qed.

Lemma lines_app_newline (l r : str) :
  NL ∉ l → lines (l ++ NL :: r) = l :: lines r.
Proof.
  induction l as [|c l IH]; [done|]. intros H.
  apply not_elem_of_cons in H as [Hc Hl]. simpl.
  destruct (N.eqb_spec c NL); [done|]. by rewrite IH.
Qed.

Lemma lines_head_plain (s : str) l ls : lines s = l :: ls → NL ∉ l.
Proof.
  revert l ls. induction s as [|c s IH]; intros l ls; simpl.
  - intros [= <- <-]. apply not_elem_of_nil.
  - destruct (N.eqb_spec c NL).
    + intros [= <- <-]. apply not_elem_of_nil.
    + destruct (lines s) as [|l' ls'] eqn:E.
      * intros [= <- <-]. apply not_elem_of_cons. split; [done|].
        apply not_elem_of_nil.
      * intros [= <- <-]. apply not_elem_of_cons. split; [done|].
        by eapply IH.
Qed.

End Lines.

(** ** Whole-line patterns *)

Section WholeLine.
Import Spec.

Variables (target : str) (groups : list str) (tmpl : list Re.titem).
Hypothesis target_plain : NL ∉ target.
Hypothesis target_not_nil : target ≠ [].

Local Abbreviation rewrite_line := (rewrite_line_of target groups tmpl).
Local Abbreviation rewrite_lines := (rewrite_lines_of target groups tmpl).

Lemma whole_line_None_mid prev (s : str) :
  Re.at_bol prev = false → Po.whole_line target groups prev s = None.
Proof. intros H. unfold Po.whole_line. by rewrite H. Qed.

Lemma last_target_not_bol prev :
  Re.at_bol (prev_after prev target) = false.
Proof.
  unfold prev_after. destruct (last target) as [c|] eqn:E.
  - simpl. apply N.eqb_neq. intros ->. apply target_plain.
    apply last_Some in E as [l' ->]. apply elem_of_app. right.
    apply list_elem_of_singleton. done.
  - by apply last_None in E.
Qed.

Lemma whole_line_Some prev (s : str) len gs :
  Po.whole_line target groups prev s = Some (len, gs) →
  len = length target ∧ gs = groups ∧ Re.at_bol prev = true
  ∧ ∃ rest, s = target ++ rest ∧ Re.at_eol rest = true.
Proof.
  unfold Po.whole_line.
  destruct (Re.at_bol prev); [|done]. simpl.
  destruct (Py.startswith target s) eqn:E; [|done]. simpl.
  destruct (Re.at_eol (drop (length target) s)) eqn:E2; [|done].
  intros [= <- <-]. repeat split; [].
  exists (drop (length target) s). split; [by apply startswith_app | done].
Qed.

Lemma whole_line_first_line prev (s : str) l ls :
  Re.at_bol prev = true →
  Po.whole_line target groups prev s = None →
  lines s = l :: ls → l ≠ target.
Proof.
  intros Hb Hm Hl ->. unfold Po.whole_line in Hm. rewrite Hb in Hm.
  pose proof (unlines_lines s) as Hs. rewrite Hl in Hs.
  assert (∃ rest, s = target ++ rest ∧ Re.at_eol rest = true) as (r & -> & Hr).
  { destruct ls as [|l' ls'].
    - exists []. by rewrite app_nil_r.
    - rewrite unlines_cons in Hs by done. eexists. split; [done|].
      reflexivity. }
  assert (Py.startswith target (target ++ r) = true) as E.
  { apply startswith_prefix. by exists r. }
  rewrite E, drop_app_length, Hr in Hm. done.
Qed.

Lemma sub_from_whole_line_bounded n : ∀ (s : str) prev,
  (length s ≤ n)%nat →
  Re.sub_from (Po.whole_line target groups) tmpl 0 prev s
  = unlines (rewrite_lines (Re.at_bol prev) (lines s)).
Proof.
  induction n as [|n IH]; intros s prev Hn.
  - destruct s; [|simpl in Hn; lia]. simpl.
    destruct (Re.at_bol prev); [|done].
    unfold rewrite_line_of. by rewrite decide_False.
  - destruct s as [|c t].
    { simpl. destruct (Re.at_bol prev); [|done].
      unfold rewrite_line_of. by rewrite decide_False. }
    simpl in Hn.
    destruct (Po.whole_line target groups prev (c :: t))
      as [[len gs]|] eqn:Hm.
    + pose proof Hm as Hm'.
      apply whole_line_Some in Hm' as (-> & -> & Hb & rest & Hs & Hr).
      assert (0 < length target)%nat as Hpos
        by (destruct target; [done | simpl; lia]).
      assert (length (c :: t) = length target + length rest)%nat as Hlen
        by (rewrite Hs; apply length_app).
      simpl in Hlen.
      rewrite (sub_from_match _ _ _ _ _ _ Hm) by (simpl; lia).
      rewrite Hs, take_app_length, drop_app_length, Hb.
      destruct rest as [|d r].
      * rewrite (app_nil_r target), lines_plain by exact target_plain. simpl.
        unfold rewrite_line_of. by rewrite decide_True, app_nil_r.
      * simpl in Hr. apply N.eqb_eq in Hr as ->.
        rewrite lines_app_newline by exact target_plain.
        rewrite sub_from_no_match
          by (apply whole_line_None_mid, last_target_not_bol).
        rewrite IH by (simpl in Hlen; lia). simpl Re.at_bol.
        destruct (lines r) as [|l ls] eqn:El;
          [by apply lines_not_nil in El|].
        cbn [rewrite_lines_of].
        rewrite (unlines_cons (rewrite_line target)) by done.
        unfold rewrite_line_of at 3. by rewrite decide_True.
    + rewrite sub_from_no_match, IH by (done || lia).
      simpl lines. simpl Re.at_bol. destruct (N.eqb_spec c NL) as [->|Hc].
      * cbn [rewrite_lines_of].
        destruct (lines t) as [|l ls] eqn:El;
          [by apply lines_not_nil in El|].
        rewrite unlines_cons by done. simpl.
        destruct (Re.at_bol prev); [|done].
        assert (rewrite_line [] = []) as ->; [|done].
        unfold rewrite_line_of. by rewrite decide_False.
      * destruct (lines t) as [|l ls] eqn:El;
          [by apply lines_not_nil in El|].
        cbn [rewrite_lines_of].
        assert ((if Re.at_bol prev then rewrite_line (c :: l) else c :: l)
                = c :: l) as ->.
        { destruct (Re.at_bol prev) eqn:Hb; [|done].
          unfold rewrite_line_of. rewrite decide_False; [done|].
          eapply (whole_line_first_line prev (c :: t)); [done..|].
          simpl. destruct (N.eqb_spec c NL); [done|]. by rewrite El. }
        simpl. destruct ls; [done|]. done.
Qed.

Lemma sub_from_whole_line (s : str) :
  Re.sub_from (Po.whole_line target groups) tmpl 0 None s
  = unlines (map rewrite_line (lines s)).
Proof.
  rewrite (sub_from_whole_line_bounded (length s)) by done. simpl.
  by destruct (lines s).
Qed.

End WholeLine.

(** ** The fill operation *)

Section Fill.
Import Spec Migrate.

Lemma template_escaped n (t rest : str) :
  Re.template_from n Re.T0 (flat_map escape_char t ++ rest)
  = app (map Re.TLit (written_value t)) <$> Re.template_from n Re.T0 rest.
Proof.
  induction t as [|c t IH]; simpl flat_map.
  - simpl. by destruct (Re.template_from n Re.T0 rest).
  - rewrite <- app_assoc. unfold escape_char at 1.
    destruct (N.eqb_spec c BS) as [->|H1].
    { simpl. rewrite IH.
      by destruct (Re.template_from n Re.T0 rest). }
    destruct (N.eqb_spec c DQ) as [->|H2].
    { simpl. rewrite IH.
      by destruct (Re.template_from n Re.T0 rest). }
    destruct (N.eqb_spec c NL) as [->|H3].
    { simpl. rewrite IH.
      by destruct (Re.template_from n Re.T0 rest). }
    simpl. destruct (N.eqb_spec c BS); [done|].
    destruct (N.eqb_spec c DQ); [done|]. rewrite IH.
    by destruct (Re.template_from n Re.T0 rest).
Qed.

Lemma simple_template (t : str) :
  Re.parse_template 0 (py "msgstr " ++ [DQ] ++ _escape t ++ [DQ])
  = Some (map Re.TLit (py "msgstr " ++ [DQ] ++ written_value t ++ [DQ])).
Proof.
  unfold Re.parse_template. rewrite escape_char_wise.
  change (py "msgstr " ++ [DQ] ++ flat_map escape_char t ++ [DQ])
    with (py "msgstr " ++ DQ :: (flat_map escape_char t ++ [DQ])).
  cbn [py list_ascii_of_string map app].
  cbn -[flat_map escape_char written_value].
  rewrite template_escaped. simpl. by rewrite map_app.
Qed.

Lemma plural_template (t : str) :
  Re.parse_template 1 ([BS; 49; DQ] ++ _escape t ++ [DQ])
  = Some (Re.TGroup 1 :: map Re.TLit ([DQ] ++ written_value t ++ [DQ])).
Proof.
  unfold Re.parse_template. rewrite escape_char_wise.
  cbn -[flat_map escape_char written_value].
  rewrite template_escaped. simpl. by rewrite map_app.
Qed.

Lemma expand_literal (l whole : str) groups :
  Re.expand (map Re.TLit l) whole groups = l.
Proof.
  unfold Re.expand. induction l as [|c l IH]; [done|]. simpl. by rewrite IH.
Qed.

Lemma expand_group1 (l whole g : str) :
  Re.expand (Re.TGroup 1 :: map Re.TLit l) whole [g] = g ++ l.
Proof.
  unfold Re.expand. simpl. f_equal. apply (expand_literal l whole [g]).
Qed.

Lemma sub_with_template m n repl tmpl (s : str) :
  Re.parse_template n repl = Some tmpl →
  Re.sub m n repl s = Some (Re.sub_from m tmpl 0 None s).
Proof. intros H. unfold Re.sub. by rewrite H. Qed.

Lemma empty_msgstr_plain : NL ∉ Po.empty_msgstr.
Proof. apply (bool_decide_unpack _). by vm_compute. Qed.

Lemma empty_msgstr0_plain : NL ∉ Po.empty_msgstr0.
Proof. apply (bool_decide_unpack _). by vm_compute. Qed.

Lemma sub_simple (t block : str) :
  Re.sub (Po.whole_line Po.empty_msgstr []) 0
    (py "msgstr " ++ [DQ] ++ _escape t ++ [DQ]) block
  = Some (unlines (map (fill_line Po.empty_msgstr (filled_msgstr t))
                     (lines block))).
Proof.
  rewrite (sub_with_template _ _ _ _ _ (simple_template t)).
  rewrite sub_from_whole_line by (exact empty_msgstr_plain || done).
  do 2 f_equal. apply map_ext. intros l. unfold rewrite_line_of, fill_line.
  by rewrite expand_literal.
Qed.

Lemma sub_plural (t block : str) :
  Re.sub (Po.whole_line Po.empty_msgstr0 [py "msgstr[0] "]) 1
    ([BS; 49; DQ] ++ _escape t ++ [DQ]) block
  = Some (unlines (map (fill_line Po.empty_msgstr0 (filled_msgstr0 t))
                     (lines block))).
Proof.
  rewrite (sub_with_template _ _ _ _ _ (plural_template t)).
  rewrite sub_from_whole_line by (exact empty_msgstr0_plain || done).
  do 2 f_equal. apply map_ext. intros l. unfold rewrite_line_of, fill_line.
  by rewrite expand_group1.
Qed.

(** [_fill_block] by cases on the key it looks up. *)
Lemma fill_block_by_key (block : str) (translations : gmap key str) :
  _fill_block block translations =
  match fill_key block with
  | None => Some (block, 0, 0)%nat
  | Some k =>
      if has_slot k block && nonempty (looked_up translations k)
      then Some (unlines (map (fill_line (slot k)
                                 (filled_line k (looked_up translations k)))
                            (lines block)), 1, 1)%nat
      else Some (block, 0, 1)%nat
  end.
Proof.
  unfold _fill_block, fill_key, fill_msgid.
  destruct (negb (nonempty (Py.strip block))
            || negb (Py.contains (py "msgid") block)); [done|].
  destruct (Re.search msgid_pattern block) as [groups|]; [|done].
  cbn [fmap option_fmap option_map].
  destruct (negb (nonempty (_unescape (default [] (groups !! 0%nat)))));
    [done|].
  destruct (Re.search msgid_plural_pattern block) as [pgroups|].
  - cbn [has_slot slot filled_line]. unfold looked_up.
    destruct (bool_decide _); [|done]. cbn [andb].
    destruct (nonempty _); [|done]. by rewrite sub_plural.
  - cbn [has_slot slot filled_line]. unfold looked_up.
    destruct (bool_decide _); [|done]. cbn [andb].
    destruct (nonempty _); [|done]. by rewrite sub_simple.
Qed.

(** A block that opens with the declaration of the empty key is a header
    for the fill operation, whatever follows. *)
Lemma fill_block_header_declaration (rest : str)
  (translations : gmap key str) :
  _fill_block (py "msgid " ++ [DQ; DQ] ++ rest) translations
  = Some (py "msgid " ++ [DQ; DQ] ++ rest, 0, 0)%nat.
Proof.
  rewrite fill_block_by_key.
  assert (fill_msgid (py "msgid " ++ [DQ; DQ] ++ rest) = Some []) as H
    by reflexivity.
  unfold fill_key. rewrite H. by destruct (_ || _).
Qed.

(** The fill operation on a whole file always returns. *)
Lemma fill_parts_returns parts (translations : gmap key str) :
  is_Some (fill_parts parts translations).
Proof.
  induction parts as [|[part sep] parts [[[tail filled] total] IH]]; [done|].
  simpl. rewrite fill_block_by_key, IH.
  destruct (fill_key part) as [k|]; [|done].
  by destruct (has_slot k part && nonempty (looked_up translations k)).
Qed.

Lemma fill_po_file_returns (content : str) (translations : gmap key str) :
  is_Some (fill_po_file content translations).
Proof. apply fill_parts_returns. Qed.

Lemma fill_line_frame target new_line (l : str) :
  l ≠ target → fill_line target new_line l = l.
Proof. intros H. unfold fill_line. by rewrite decide_False. Qed.

Lemma map_id_lines (s : str) : unlines (map (fun l => l) (lines s)) = s.
Proof. rewrite map_id. apply unlines_lines. Qed.

(** The frame of the fill operation on physical lines: it always
    returns; what it returns is the block with some of its lines
    rewritten, and a line that is not exactly an empty declaration is
    never among them.  When nothing is counted as filled the block is
    returned as it was, and that is so whenever the looked-up translation
    is absent or empty (or no key is looked up). *)
Lemma fill_block_frame (block : str) (translations : gmap key str) :
  ∃ new_block filled total (g : str → str),
    _fill_block block translations = Some (new_block, filled, total)
    ∧ new_block = unlines (map g (lines block))
    ∧ (∀ l, ¬ empty_declaration l → g l = l)
    ∧ (filled = 0%nat → new_block = block)
    ∧ (∀ k, fill_key block = Some k →
            translations !! k = None ∨ translations !! k = Some [] →
            filled = 0%nat)
    ∧ (fill_key block = None → filled = 0%nat ∧ total = 0%nat).
Proof.
  rewrite fill_block_by_key.
  destruct (fill_key block) as [k|].
  - destruct (has_slot k block && nonempty (looked_up translations k)) eqn:E.
    + eexists _, _, _, _. split; [done|]. split; [done|].
      apply andb_true_iff in E as [_ E].
      repeat split; try done.
      * intros l Hl. apply fill_line_frame. intros ->. apply Hl.
        unfold empty_declaration. destruct k; [by left | by right].
      * intros k' [= <-] Hk. unfold looked_up in E.
        destruct Hk as [Hk|Hk]; by rewrite Hk in E.
    + exists block, 0%nat, 1%nat, (fun l => l).
      split; [done|]. split; [by rewrite map_id_lines|]. done.
  - exists block, 0%nat, 0%nat, (fun l => l).
    split; [done|]. split; [by rewrite map_id_lines|]. done.
Qed.

(** What the fill operation writes into a block with a slot, for a
    non-empty translation: the value with its quotes escaped and nothing
    else, because [re.sub] processes the escapes of the replacement. *)
Lemma fill_block_writes (block : str) (translations : gmap key str) k :
  fill_key block = Some k → has_slot k block = true →
  looked_up translations k ≠ [] →
  _fill_block block translations
  = Some (unlines (map (fill_line (slot k)
                          (filled_line k (looked_up translations k)))
                     (lines block)), 1, 1)%nat.
Proof.
  intros Hk Hs Ht. rewrite fill_block_by_key, Hk, Hs.
  by destruct (looked_up translations k).
Qed.

Lemma written_value_plain (t : str) :
  BS ∉ t → NL ∉ t → written_value t = _escape t.
Proof.
  rewrite escape_char_wise. unfold written_value.
  induction t as [|c t IH]; [done|]. intros Hb Hn.
  apply not_elem_of_cons in Hb as [Hb1 Hb2].
  apply not_elem_of_cons in Hn as [Hn1 Hn2].
  simpl. rewrite IH by done. f_equal. unfold escape_char.
  destruct (N.eqb_spec c BS); [done|]. destruct (N.eqb_spec c DQ); [done|].
  by destruct (N.eqb_spec c NL).
Qed.

(** C3 fails on the code: for a translation with a line feed the value
    line written holds the line feed itself, not the two characters
    backslash and n that [_escape] produced. *)
Theorem fill_block_writes_raw_newline :
  _escape greeting = py "Hola" ++ [BS; 110] ++ py "mundo"
  ∧ _fill_block greeting_block greeting_table
    = Some (py "msgid " ++ [DQ] ++ py "greeting" ++ [DQ; NL]
            ++ py "msgstr " ++ [DQ] ++ py "Hola" ++ [NL] ++ py "mundo" ++ [DQ],
            1, 1)%nat
  ∧ _fill_block greeting_block greeting_table
    ≠ Some (py "msgid " ++ [DQ] ++ py "greeting" ++ [DQ; NL]
            ++ py "msgstr " ++ [DQ] ++ _escape greeting ++ [DQ],
            1, 1)%nat.
Proof. split; [|split]; vm_compute; congruence. Qed.

(** C6 fails on the code: a value that opens with an empty first line
    and goes on over continuation lines is not empty, as the parser reads
    it; the fill operation looks at the first line alone, takes the value
    for empty and writes the translation in front of the continuation
    lines, so that the existing value is overwritten: the parser reads
    the new block as the translation followed by the old value. *)
Theorem fill_block_overwrites_continued_value
  (uni_decimal : char -> option N) :
  parse_po uni_decimal title_block
    = Some {[ KStr (py "Title") := py "old line" ++ [NL] ++ py "more" ]}
  ∧ _fill_block title_block title_table
    = Some (title_block_filled, 1, 1)%nat
  ∧ parse_po uni_decimal title_block_filled
    = Some {[ KStr (py "Title")
              := py "Nuevoold line" ++ [NL] ++ py "more" ]}.
Proof. repeat split; vm_compute; reflexivity. Qed.

(** C7 fails on the code: the parser reads the key of the block over both
    lines, the fill operation looks the block up under the first line's
    fragment alone, and so leaves the slot empty although the backup has
    the translation. *)
Theorem fill_block_ignores_continuation (uni_decimal : char -> option N) :
  parse_po uni_decimal hello_backup
    = Some {[ KStr (py "Hello") := py "Hola" ]}
  ∧ parsed_msgid uni_decimal hello_block = Some (Some (py "Hello"))
  ∧ fill_key hello_block = Some (KStr (py "Hel"))
  ∧ _fill_block hello_block {[ KStr (py "Hello") := py "Hola" ]}
    = Some (hello_block, 0, 1)%nat.
Proof. repeat split; vm_compute; reflexivity. Qed.

End Fill.

(** ** The call rewriter *)

Section Free.

Lemma sub_from_free m tmpl prev (s : str) :
  free m prev s → Re.sub_from m tmpl 0 prev s = s.
Proof.
  revert prev. induction s as [|c s IH]; intros prev; [done|].
  intros [Hm Hs]. rewrite sub_from_no_match by done. by rewrite IH.
Qed.

Lemma free_app m prev (u v : str) :
  free_prefix m prev u v → free m (prev_after prev u) v →
  free m prev (u ++ v).
Proof.
  revert prev. induction u as [|c u IH]; intros prev; [done|].
  intros [Hm Hu] Hv. split; [done|]. apply IH; [done|].
  by rewrite <- (prev_after_cons prev).
Qed.

Lemma free_suffix m prev (u v : str) :
  free m prev (u ++ v) → free m (prev_after prev u) v.
Proof.
  revert prev. induction u as [|c u IH]; intros prev; [done|].
  intros [_ H]. rewrite prev_after_cons. by apply IH.
Qed.

Lemma free_prefix_app m prev (u1 u2 v : str) :
  free_prefix m prev u1 (u2 ++ v) →
  free_prefix m (prev_after prev u1) u2 v →
  free_prefix m prev (u1 ++ u2) v.
Proof.
  revert prev. induction u1 as [|c u1 IH]; intros prev; [done|].
  intros [Hm H1] H2. split; [cbn in *; by rewrite <- app_assoc|].
  apply IH; [done|]. by rewrite <- (prev_after_cons prev).
Qed.

End Free.

Section Rewriter.
Import GettextSplit.

Variable uni_alnum : char -> bool.

Local Abbreviation bare := (bare_call uni_alnum).
Local Abbreviation behind := (behind_d_or_word uni_alnum).

Lemma bare_call_blocked name prev (s : str) :
  behind prev = true → bare name prev s = None.
Proof. intros H. unfold bare_call. by rewrite H. Qed.

Lemma bare_call_head name prev (s : str) :
  Py.startswith name s = false → bare name prev s = None.
Proof. intros H. unfold bare_call. by rewrite H, andb_false_r. Qed.

Lemma bare_call_Some name prev (s : str) len gs :
  bare name prev s = Some (len, gs) →
  behind prev = false ∧ Py.startswith name s = true
  ∧ len = length name ∧ gs = [].
Proof.
  unfold bare_call. destruct (behind prev); [done|].
  destruct (Py.startswith name s); [|done]. by intros [= <- <-].
Qed.

Lemma bare_call_None name prev (s : str) :
  bare name prev s = None →
  behind prev = true ∨ Py.startswith name s = false.
Proof.
  unfold bare_call. destruct (behind prev); [by left|].
  destruct (Py.startswith name s); [done | by right].
Qed.

Lemma bare_call_prev name p p' (s : str) :
  behind p = behind p' → bare name p s = bare name p' s.
Proof. intros H. unfold bare_call. by rewrite H. Qed.

Lemma free_bare_prev name p p' (s : str) :
  behind p = behind p' → free (bare name) p s → free (bare name) p' s.
Proof.
  intros H. destruct s as [|c s]; [done|]. intros [Hm Hs].
  split; [|done]. by rewrite <- (bare_call_prev name p p').
Qed.

(** A name that ends with the parenthesis and has no quote cannot start
    inside a label and run over the quote that closes it. *)
Lemma startswith_through (w d rest : str) :
  last w = Some 40 → DQ ∉ w → 40 ∉ d →
  Py.startswith w (d ++ DQ :: rest) = false.
Proof.
  revert w. induction d as [|c d IH]; intros w Hl Hq Hd.
  - destruct w as [|a w]; [done|]. simpl.
    apply not_elem_of_cons in Hq as [Hq _].
    apply andb_false_intro1. apply N.eqb_neq. congruence.
  - destruct w as [|a w]; [done|].
    apply not_elem_of_cons in Hq as [_ Hq].
    apply not_elem_of_cons in Hd as [Hc Hd]. simpl.
    destruct w as [|b w].
    + simpl in Hl. injection Hl as ->.
      apply andb_false_intro1. apply N.eqb_neq. congruence.
    + apply andb_false_intro2. by apply IH.
Qed.

Lemma free_prefix_label name prev (d rest : str) :
  last name = Some 40 → DQ ∉ name → 40 ∉ d →
  free_prefix (bare name) prev d (DQ :: rest).
Proof.
  intros Hl Hq. revert prev. induction d as [|c d IH]; intros prev Hd; [done|].
  split.
  - apply bare_call_head. by apply startswith_through.
  - apply IH. by apply not_elem_of_cons in Hd as [_ Hd].
Qed.

(** What a substitution that writes [d] in front of the matched name does
    to a pattern whose name has no [d]: the pattern matches in the result
    only where it matched in the subject. *)
Lemma startswith_sub_from np tmpl (w s : str) prev :
  (∀ whole gs, ∃ r, Re.expand tmpl whole gs = 100 :: r) →
  100 ∉ w →
  Py.startswith w (Re.sub_from (bare np) tmpl 0 prev s) = true →
  Py.startswith w s = true.
Proof.
  intros Hexp. revert w prev.
  induction s as [|c t IH]; intros w prev Hw; [done|].
  destruct w as [|a w]; [done|].
  apply not_elem_of_cons in Hw as [Ha Hw].
  destruct (bare np prev (c :: t)) as [[len gs]|] eqn:Hm.
  - simpl Re.sub_from. rewrite Hm.
    destruct (Hexp (take len (c :: t)) gs) as [r ->]. simpl.
    destruct (N.eqb_spec a 100); [done|]. done.
  - rewrite sub_from_no_match by done. simpl.
    destruct (a =? c); [|done]. simpl. by apply IH.
Qed.

Section Output.

Variables (np nq d : str).
Hypothesis np_last : last np = Some 40.
Hypothesis nq_no_d : 100 ∉ nq.
Hypothesis replacement_free :
  ∀ prev X, free_prefix (bare nq) prev (bare_replacement np d) X.

Local Abbreviation tmpl := (map Re.TLit (bare_replacement np d)).

Lemma expand_bare_replacement whole gs :
  Re.expand tmpl whole gs = bare_replacement np d.
Proof. apply expand_literal. Qed.

Lemma np_prev_after prev : prev_after prev np = Some 40.
Proof. unfold prev_after. by rewrite np_last. Qed.

Lemma replacement_prev_after prev :
  prev_after prev (bare_replacement np d) = Some 32.
Proof.
  unfold prev_after, bare_replacement, with_domain.
  by rewrite !last_app.
Qed.

Lemma sub_output_free_bounded n : ∀ (s : str) prev,
  (length s ≤ n)%nat →
  nq = np ∨ free (bare nq) prev s →
  free (bare nq) prev (Re.sub_from (bare np) tmpl 0 prev s).
Proof.
  induction n as [|n IH]; intros s prev Hn Hs.
  { destruct s; [done | simpl in Hn; lia]. }
  destruct s as [|c t]; [done|]. simpl in Hn.
  destruct (bare np prev (c :: t)) as [[len gs]|] eqn:Hm.
  - pose proof Hm as Hm'.
    apply bare_call_Some in Hm' as (Hb & Hst & -> & ->).
    assert (0 < length np)%nat as Hpos by (destruct np; [done | simpl; lia]).
    pose proof (startswith_app _ _ Hst) as Hsplit.
    assert (length (c :: t) = length np + length (drop (length np) (c :: t)))%nat
      as Hlen by (rewrite Hsplit at 1; apply length_app).
    simpl length in Hlen at 1.
    rewrite (sub_from_match _ _ _ _ _ _ Hm) by (simpl; lia).
    rewrite expand_bare_replacement.
    assert (take (length np) (c :: t) = np) as ->.
    { rewrite Hsplit at 1. apply take_app_length. }
    rewrite np_prev_after.
    apply free_app; [apply replacement_free|].
    rewrite replacement_prev_after.
    apply (free_bare_prev nq (Some 40)); [done|].
    apply IH; [lia|].
    destruct Hs as [->|Hs]; [by left | right].
    rewrite <- (np_prev_after prev). apply free_suffix.
    by rewrite <- Hsplit.
  - rewrite sub_from_no_match by done. split.
    + destruct (bare nq prev (c :: Re.sub_from (bare np) tmpl 0 (Some c) t))
        as [[len gs]|] eqn:Hq; [|done]. exfalso.
      apply bare_call_Some in Hq as (Hb & Hst & _).
      assert (Py.startswith nq (c :: t) = true) as Hst'.
      { destruct nq as [|a w]; [done|]. simpl in Hst |- *.
        apply andb_true_iff in Hst as [-> Hst]. simpl.
        apply not_elem_of_cons in nq_no_d as [_ Hw].
        eapply startswith_sub_from; [|done..].
        intros whole gs'. rewrite expand_bare_replacement. by eexists. }
      destruct Hs as [->|[Hs _]].
      * apply bare_call_None in Hm as [Hm|Hm]; congruence.
      * apply bare_call_None in Hs as [Hs|Hs]; congruence.
    + apply IH; [lia|]. destruct Hs as [->|[_ Hs]]; [by left | by right].
Qed.

Lemma sub_output_free (s : str) prev :
  nq = np ∨ free (bare nq) prev s →
  free (bare nq) prev (Re.sub_from (bare np) tmpl 0 prev s).
Proof. by apply (sub_output_free_bounded (length s)). Qed.

End Output.

Ltac no_match :=
  first [ apply bare_call_head; reflexivity
        | apply bare_call_blocked; reflexivity ].

Lemma name_a_no_d : 100 ∉ name_a.
Proof. apply (bool_decide_unpack _). by vm_compute. Qed.

Lemma name_b_no_d : 100 ∉ name_b.
Proof. apply (bool_decide_unpack _). by vm_compute. Qed.

Lemma name_a_no_quote : DQ ∉ name_a.
Proof. apply (bool_decide_unpack _). by vm_compute. Qed.

Lemma name_b_no_quote : DQ ∉ name_b.
Proof. apply (bool_decide_unpack _). by vm_compute. Qed.

(** No bare pattern matches inside the text a bare form is replaced by. *)
Lemma replacement_a_free_a d prev X :
  plain_label d → free_prefix (bare name_a) prev (bare_replacement name_a d) X.
Proof.
  intros [_ Hd]. unfold bare_replacement, with_domain.
  apply free_prefix_app; [repeat split; no_match|].
  apply free_prefix_app; [repeat split; no_match|].
  apply free_prefix_app;
    [by apply free_prefix_label; [| apply name_a_no_quote |]
    | repeat split; no_match].
Qed.

Lemma replacement_b_free_b d prev X :
  plain_label d → free_prefix (bare name_b) prev (bare_replacement name_b d) X.
Proof.
  intros [_ Hd]. unfold bare_replacement, with_domain.
  apply free_prefix_app; [repeat split; no_match|].
  apply free_prefix_app; [repeat split; no_match|].
  apply free_prefix_app;
    [by apply free_prefix_label; [| apply name_b_no_quote |]
    | repeat split; no_match].
Qed.

Lemma replacement_b_free_a d prev X :
  plain_label d → free_prefix (bare name_a) prev (bare_replacement name_b d) X.
Proof.
  intros [_ Hd]. unfold bare_replacement, with_domain.
  apply free_prefix_app; [repeat split; no_match|].
  apply free_prefix_app; [repeat split; no_match|].
  apply free_prefix_app;
    [by apply free_prefix_label; [| apply name_a_no_quote |]
    | repeat split; no_match].
Qed.

(** A match of a module-qualified form contains a match of the bare form
    behind the dot: where the bare pattern matches nowhere, neither does
    the qualified one. *)
Lemma module_call_free name prev (s : str) :
  name ≠ [] →
  free (bare name) prev s →
  free (module_call uni_alnum (py "Gettext." ++ name)) prev s.
Proof.
  intros Hne. revert prev. induction s as [|c t IH]; intros prev; [done|].
  intros Hs. split; [|apply IH; by destruct Hs].
  unfold module_call.
  destruct (word_start uni_alnum prev); [|done]. cbn [andb].
  destruct (Py.startswith (py "Gettext." ++ name) (c :: t)) eqn:E; [|done].
  exfalso. apply startswith_prefix in E as [r E]. rewrite E in Hs.
  rewrite <- app_assoc in Hs. apply free_suffix in Hs.
  destruct name as [|a name]; [done|]. destruct Hs as [Hs _].
  apply bare_call_None in Hs as [Hs|Hs]; [done|].
  apply startswith_not_prefix in Hs. apply Hs. by eexists.
Qed.

Lemma template_literal n (l : str) :
  BS ∉ l → Re.template_from n Re.T0 l = Some (map Re.TLit l).
Proof.
  induction l as [|c l IH]; [done|]. intros H.
  apply not_elem_of_cons in H as [Hc Hl]. simpl.
  destruct (N.eqb_spec c BS); [done|]. by rewrite IH.
Qed.

Lemma with_domain_plain (head d : str) :
  BS ∉ head → plain_label d → BS ∉ with_domain head d.
Proof.
  intros Hh [Hd _]. unfold with_domain.
  rewrite !not_elem_of_app. repeat split; try done.
  - by apply (bool_decide_unpack _).
  - by apply (bool_decide_unpack _).
  - by apply (bool_decide_unpack _).
Qed.

Lemma sub_plain m (head d s : str) :
  BS ∉ head → plain_label d →
  Re.sub m 0 (with_domain head d) s = Some (pass m head d s).
Proof.
  intros Hh Hd. apply sub_with_template, template_literal.
  by apply with_domain_plain.
Qed.

Lemma transform_content_plain (c d : str) :
  plain_label d →
  transform_content uni_alnum c d
  = Some (pass (RE_NGETTEXT uni_alnum) head_b d
            (pass (RE_GETTEXT uni_alnum) head_a d
               (pass (RE_MOD_NGETTEXT uni_alnum) head_d d
                  (pass (RE_MOD_GETTEXT uni_alnum) head_c d c)))).
Proof.
  intros Hd. unfold transform_content.
  rewrite (sub_plain _ head_c) by (done || by apply (bool_decide_unpack _)).
  cbn [mbind option_bind].
  rewrite (sub_plain _ head_d) by (done || by apply (bool_decide_unpack _)).
  cbn [mbind option_bind].
  rewrite (sub_plain _ head_a) by (done || by apply (bool_decide_unpack _)).
  cbn [mbind option_bind].
  rewrite (sub_plain _ head_b) by (done || by apply (bool_decide_unpack _)).
  done.
Qed.

(** The result of the rewriter holds no match of a bare pattern. *)
Lemma output_free_a (d s : str) :
  plain_label d →
  free (bare name_a) None
    (pass (RE_NGETTEXT uni_alnum) head_b d
       (pass (RE_GETTEXT uni_alnum) head_a d s)).
Proof.
  intros Hd.
  apply (sub_output_free name_b name_a d);
    [done | apply name_a_no_d
    | intros; by apply replacement_b_free_a |].
  right.
  apply (sub_output_free name_a name_a d);
    [done | apply name_a_no_d
    | intros; by apply replacement_a_free_a |].
  by left.
Qed.

Lemma output_free_b (d s : str) :
  plain_label d →
  free (bare name_b) None (pass (RE_NGETTEXT uni_alnum) head_b d s).
Proof.
  intros Hd.
  apply (sub_output_free name_b name_b d);
    [done | apply name_b_no_d
    | intros; by apply replacement_b_free_b |].
  by left.
Qed.

(** Idempotence for every plain label. *)
Lemma transform_content_idempotent_plain (c d : str) :
  plain_label d →
  ∃ c', transform_content uni_alnum c d = Some c'
        ∧ transform_content uni_alnum c' d = Some c'.
Proof.
  intros Hd.
  set (out := pass (RE_NGETTEXT uni_alnum) head_b d
                (pass (RE_GETTEXT uni_alnum) head_a d
                   (pass (RE_MOD_NGETTEXT uni_alnum) head_d d
                      (pass (RE_MOD_GETTEXT uni_alnum) head_c d c)))).
  exists out. split; [by apply transform_content_plain|].
  rewrite transform_content_plain by done.
  assert (free (bare name_a) None out) as Ha by by apply output_free_a.
  assert (free (bare name_b) None out) as Hb by by apply output_free_b.
  assert (pass (RE_MOD_GETTEXT uni_alnum) head_c d out = out) as ->.
  { apply sub_from_free. by apply (module_call_free name_a). }
  assert (pass (RE_MOD_NGETTEXT uni_alnum) head_d d out = out) as ->.
  { apply sub_from_free. by apply (module_call_free name_b). }
  assert (pass (RE_GETTEXT uni_alnum) head_a d out = out) as ->.
  { by apply sub_from_free. }
  assert (pass (RE_NGETTEXT uni_alnum) head_b d out = out) as ->.
  { by apply sub_from_free. }
  done.
Qed.

Lemma domain_labels_plain :
  Forall plain_label DOMAIN_RULES.*2.
Proof.
  apply Forall_forall. intros d Hd.
  split; apply (bool_decide_unpack _); revert d Hd;
    apply Forall_forall; apply (bool_decide_unpack _); by vm_compute.
Qed.

(** C4: the text transform is idempotent.  For every content and every
    domain label of the routing table, [transform_content] returns, and
    applied to its own result with the same label it returns that result
    again: no pattern matches anything the first application wrote. *)
Theorem transform_content_idempotent (c d : str) :
  d ∈ DOMAIN_RULES.*2 →
  ∃ c', transform_content uni_alnum c d = Some c'
        ∧ transform_content uni_alnum c' d = Some c'.
Proof.
  intros Hd. apply transform_content_idempotent_plain.
  by apply (proj1 (Forall_forall _ _) domain_labels_plain).
Qed.

(** *** A qualified call without the locale handle *)

Lemma sub_from_prefix_free m tmpl prev (u v : str) :
  free_prefix m prev u v →
  Re.sub_from m tmpl 0 prev (u ++ v)
  = u ++ Re.sub_from m tmpl 0 (prev_after prev u) v.
Proof.
  revert prev. induction u as [|c u IH]; intros prev; [done|].
  intros [Hm Hu]. cbn [app] in *. rewrite sub_from_no_match by done.
  by rewrite IH, <- (prev_after_cons prev).
Qed.

Lemma module_call_head name prev (s : str) :
  Py.startswith name s = false → module_call uni_alnum name prev s = None.
Proof. intros H. unfold module_call. by rewrite H, andb_false_r. Qed.

Lemma module_call_no_handle name prev (post : str) :
  Py.startswith (py "StoryarnWeb.Gettext,") (drop (Re.spaces post) post)
  = false →
  module_call uni_alnum name prev (name ++ post) = None.
Proof.
  intros H. unfold module_call.
  destruct (word_start uni_alnum prev && Py.startswith name (name ++ post));
    [|done].
  by rewrite drop_app_length, H.
Qed.

Ltac no_module_match := apply module_call_head; reflexivity.

Lemma sub_from_bare_match name tmpl prev (rest : str) :
  name ≠ [] → behind prev = false →
  Re.sub_from (bare name) tmpl 0 prev (name ++ rest)
  = Re.expand tmpl name []
    ++ Re.sub_from (bare name) tmpl 0 (prev_after prev name) rest.
Proof.
  intros Hne Hb.
  assert (bare name prev (name ++ rest) = Some (length name, [])) as Hm.
  { unfold bare_call. rewrite Hb.
    assert (Py.startswith name (name ++ rest) = true) as ->; [|done].
    apply startswith_prefix. by eexists. }
  rewrite (sub_from_match _ _ _ _ _ _ Hm).
  - by rewrite take_app_length, drop_app_length.
  - rewrite length_app. destruct name; [done | simpl; lia].
Qed.

Lemma replacement_a_free_b d prev X :
  plain_label d → free_prefix (bare name_b) prev (bare_replacement name_a d) X.
Proof.
  intros [_ Hd]. unfold bare_replacement, with_domain.
  apply free_prefix_app; [repeat split; no_match|].
  apply free_prefix_app; [repeat split; no_match|].
  apply free_prefix_app;
    [by apply free_prefix_label; [| apply name_b_no_quote |]
    | repeat split; no_match].
Qed.

Lemma with_domain_app (u head d : str) :
  with_domain (u ++ head) d = u ++ with_domain head d.
Proof. unfold with_domain. by rewrite <- app_assoc. Qed.

Lemma qualified_call_rewritten_plain (d post : str) :
  plain_label d →
  Py.startswith (py "StoryarnWeb.Gettext,") (drop (Re.spaces post) post)
  = false →
  transform_content uni_alnum (py "Gettext.gettext(" ++ post) d
  = Some (with_domain (py "Gettext.dgettext(") d
          ++ transform_after_call uni_alnum d post).
Proof.
  intros Hd Hpost. rewrite transform_content_plain by done.
  unfold transform_after_call, pass_after, pass. f_equal.
  (* form C: no match at the call, none inside its name *)
  rewrite (sub_from_prefix_free (RE_MOD_GETTEXT uni_alnum));
    [|split; [by apply module_call_no_handle
             | repeat split; no_module_match]].
  (* form D *)
  rewrite (sub_from_prefix_free (RE_MOD_NGETTEXT uni_alnum))
    by (repeat split; no_module_match).
  (* form A: the match behind the dot *)
  change (py "Gettext.gettext(") with (py "Gettext." ++ name_a).
  rewrite <- (app_assoc (py "Gettext.")).
  rewrite (sub_from_prefix_free (RE_GETTEXT uni_alnum))
    by (repeat split; no_match).
  rewrite (sub_from_bare_match name_a) by done.
  rewrite expand_literal.
  (* form B: nothing in front of the rest *)
  rewrite (app_assoc (py "Gettext.")).
  rewrite (sub_from_prefix_free (RE_NGETTEXT uni_alnum)).
  - assert (prev_after None (py "Gettext." ++ with_domain head_a d)
            = Some 32) as ->
      by (unfold prev_after, with_domain; by rewrite !last_app).
    change (py "Gettext.dgettext(") with (py "Gettext." ++ head_a).
    rewrite with_domain_app, <- !app_assoc. reflexivity.
  - apply free_prefix_app; [repeat split; no_match|].
    by apply replacement_a_free_b.
Qed.

Lemma transform_after_call_other_args (d : str) :
  transform_after_call uni_alnum d other_args = other_args.
Proof. reflexivity. Qed.

(** C10: a module-qualified call whose first argument is not the locale
    handle is still rewritten, by the bare form A pattern behind the dot.
    For every domain label of the routing table and every text that opens
    with such a call, the result opens with the call renamed and the
    label injected as first argument, in front of what followed the
    parenthesis; for the arguments [Other, "x")] nothing else changes. *)
Theorem qualified_call_without_handle_rewritten (d post : str) :
  d ∈ DOMAIN_RULES.*2 →
  Py.startswith (py "StoryarnWeb.Gettext,") (drop (Re.spaces post) post)
  = false →
  transform_content uni_alnum (py "Gettext.gettext(" ++ post) d
  = Some (with_domain (py "Gettext.dgettext(") d
          ++ transform_after_call uni_alnum d post)
  ∧ transform_content uni_alnum (py "Gettext.gettext(" ++ other_args) d
    = Some (with_domain (py "Gettext.dgettext(") d ++ other_args).
Proof.
  intros Hd Hpost.
  assert (plain_label d) as Hp
    by by apply (proj1 (Forall_forall _ _) domain_labels_plain).
  split; [by apply qualified_call_rewritten_plain|].
  rewrite qualified_call_rewritten_plain by done.
  by rewrite transform_after_call_other_args.
Qed.

End Rewriter.

Lemma flows_is_label : py "flows" ∈ GettextSplit.DOMAIN_RULES.*2.
Proof. apply (bool_decide_unpack _). vm_compute. reflexivity. Defined.

Lemma transform_content_idempotent_witness :
  ∃ c', GettextSplit.transform_content (fun _ => false)
          (py "x = gettext(1) + Gettext.ngettext(StoryarnWeb.Gettext, 2)")
          (py "flows") = Some c'
        ∧ GettextSplit.transform_content (fun _ => false) c' (py "flows")
          = Some c'.
Proof.
  apply (transform_content_idempotent (fun _ => false)
           (py "x = gettext(1) + Gettext.ngettext(StoryarnWeb.Gettext, 2)")
           (py "flows")).
  exact flows_is_label.
Defined.

Lemma qualified_call_without_handle_rewritten_witness :
  GettextSplit.transform_content (fun _ => false)
    (py "Gettext.gettext(" ++ other_args) (py "flows")
  = Some (GettextSplit.with_domain (py "Gettext.dgettext(") (py "flows")
          ++ transform_after_call (fun _ => false) (py "flows") other_args)
  ∧ GettextSplit.transform_content (fun _ => false)
      (py "Gettext.gettext(" ++ other_args) (py "flows")
    = Some (GettextSplit.with_domain (py "Gettext.dgettext(") (py "flows")
            ++ other_args).
Proof.
  apply (qualified_call_without_handle_rewritten (fun _ => false)
           (py "flows") other_args).
  - exact flows_is_label.
  - reflexivity.
Defined.

(** ** The rewriter on whole files *)

Section ProcessFile.
Import GettextSplit.

Variable uni_alnum : char -> bool.

Lemma contains_false_startswith (p s : str) :
  Py.contains p s = false → Py.startswith p s = false.
Proof.
  destruct s; simpl; intros H; by apply orb_false_iff in H as [H _].
Qed.

Lemma contains_false_tail (p : str) c (s : str) :
  Py.contains p (c :: s) = false → Py.contains p s = false.
Proof.
  intros H. change (Py.contains p (c :: s))
    with (Py.startswith p (c :: s) || Py.contains p s) in H.
  by apply orb_false_iff in H as [_ H].
Qed.

Lemma no_occurrence_free name prev (s : str) :
  Py.contains name s = false → free (bare_call uni_alnum name) prev s.
Proof.
  revert prev. induction s as [|c s IH]; intros prev H; [done|]. split.
  - apply bare_call_head. by apply contains_false_startswith.
  - apply IH. by eapply contains_false_tail.
Qed.

Lemma no_gettext_no_ngettext (s : str) :
  Py.contains name_a s = false → Py.contains name_b s = false.
Proof.
  induction s as [|c s IH]; intros H; [done|].
  pose proof (contains_false_tail _ _ _ H) as Ht.
  change (Py.contains name_b (c :: s))
    with (Py.startswith name_b (c :: s) || Py.contains name_b s).
  rewrite (IH Ht), orb_false_r.
  change (Py.startswith name_b (c :: s))
    with ((110 =? c) && Py.startswith name_a s).
  by rewrite (contains_false_startswith _ _ Ht), andb_false_r.
Qed.

(** A text in which the name of the call does not occur is left as it
    is, for every plain label. *)
Lemma transform_content_no_call (c d : str) :
  plain_label d → Py.contains (py "gettext(") c = false →
  transform_content uni_alnum c d = Some c.
Proof.
  intros Hd Hc. rewrite transform_content_plain by done.
  assert (free (bare_call uni_alnum name_a) None c) as Ha
    by by apply no_occurrence_free.
  assert (free (bare_call uni_alnum name_b) None c) as Hb
    by by apply no_occurrence_free, no_gettext_no_ngettext.
  assert (pass (RE_MOD_GETTEXT uni_alnum) head_c d c = c) as ->.
  { apply sub_from_free. by apply (module_call_free uni_alnum name_a). }
  assert (pass (RE_MOD_NGETTEXT uni_alnum) head_d d c = c) as ->.
  { apply sub_from_free. by apply (module_call_free uni_alnum name_b). }
  assert (pass (RE_GETTEXT uni_alnum) head_a d c = c) as ->.
  { by apply sub_from_free. }
  assert (pass (RE_NGETTEXT uni_alnum) head_b d c = c) as ->.
  { by apply sub_from_free. }
  done.
Qed.

Lemma get_domain_label (p d : str) :
  get_domain p = Some d → d ∈ DOMAIN_RULES.*2.
Proof.
  intros H. apply get_domain_in_Some in H as (b & pre & a & H & _).
  rewrite H, fmap_app, fmap_cons. apply elem_of_app. right.
  apply elem_of_cons. by left.
Qed.

Lemma get_domain_plain (p d : str) :
  get_domain p = Some d → plain_label d.
Proof.
  intros H. apply get_domain_label in H.
  by apply (proj1 (Forall_forall _ _) domain_labels_plain).
Qed.

(** [process_file] never fails: no label of the routing table makes a
    replacement string [re.sub] rejects. *)
Theorem process_file_returns (rel original : str) (dry_run : bool) :
  is_Some (process_file uni_alnum rel original dry_run).
Proof.
  unfold process_file.
  destruct (existsb _ SKIP_FILES); [done|].
  destruct (get_domain _) as [d|] eqn:Hd; [|done].
  destruct (bool_decide (d = py "default")); [done|].
  rewrite transform_content_plain by by eapply get_domain_plain.
  cbn [mbind option_bind]. by destruct (bool_decide _).
Qed.

(** A file in which [gettext(] does not occur is never written, whatever
    its path. *)
Theorem process_file_without_calls (rel original : str) (dry_run : bool) :
  Py.contains (py "gettext(") original = false →
  process_file uni_alnum rel original dry_run = Some (false, None).
Proof.
  intros Hc. unfold process_file.
  destruct (existsb _ SKIP_FILES); [done|].
  destruct (get_domain _) as [d|] eqn:Hd; [|done].
  destruct (bool_decide (d = py "default")); [done|].
  rewrite transform_content_no_call by (done || by eapply get_domain_plain).
  cbn [mbind option_bind]. by rewrite bool_decide_true.
Qed.

(** Running the rewriter again on a file it has written changes nothing:
    the second run returns [False] and writes nothing. *)
Theorem process_file_rerun (rel original transformed : str)
  (dry_run : bool) :
  process_file uni_alnum rel original false = Some (true, Some transformed) →
  process_file uni_alnum rel transformed dry_run = Some (false, None).
Proof.
  unfold process_file.
  destruct (existsb _ SKIP_FILES); [done|].
  destruct (get_domain _) as [d|] eqn:Hd; [|done].
  destruct (bool_decide (d = py "default")); [done|].
  destruct (transform_content_idempotent_plain uni_alnum original d)
    as (c' & H1 & H2); [by eapply get_domain_plain|].
  rewrite H1. cbn [mbind option_bind].
  destruct (bool_decide (c' = original)); [done|].
  intros [= <-]. rewrite H2. cbn [mbind option_bind].
  by rewrite bool_decide_true.
Qed.

End ProcessFile.

Lemma process_file_without_calls_witness :
  GettextSplit.process_file (fun _ => false)
    (py "storyarn_web/live/flow_live/index.ex")
    (py "defmodule X do end") false = Some (false, None).
Proof.
  apply (process_file_without_calls (fun _ => false)). reflexivity.
Defined.

Lemma process_file_rerun_witness :
  GettextSplit.process_file (fun _ => false)
    (py "storyarn_web\live\flow_live\index.ex")
    (py "dgettext(" ++ [DQ] ++ py "flows" ++ [DQ] ++ py ", 1)") true
  = Some (false, None).
Proof.
  apply (process_file_rerun (fun _ => false)
           (py "storyarn_web\live\flow_live\index.ex") (py "gettext(1)")).
  reflexivity.
Defined.


(** ** The routing table *)

Section Table.
Import GettextSplit.

Lemma unshadowed_get_domain_in rules (pre d s : str) :
  unshadowed rules = true → (pre, d) ∈ rules →
  get_domain_in rules (pre ++ s) = Some d.
Proof.
  induction rules as [|[p0 d0] rules IH]; intros Hu Hin.
  { by apply elem_of_nil in Hin. }
  simpl in Hu. apply andb_true_iff in Hu as [H0 Hu]. simpl.
  destruct (Py.startswith p0 (pre ++ s)) eqn:E.
  - apply elem_of_cons in Hin as [[= -> ->]|Hin]; [done|]. exfalso.
    rewrite forallb_forall in H0.
    apply list_elem_of_In, H0 in Hin. simpl in Hin.
    apply andb_true_iff in Hin as [H1 H2].
    apply negb_true_iff, startswith_not_prefix in H1, H2.
    apply startswith_prefix in E.
    destruct (prefix_weak_total p0 pre (pre ++ s)); [done| |done..].
    by apply prefix_app_r.
  - apply elem_of_cons in Hin as [[= -> ->]|Hin]; [|by apply IH].
    apply startswith_not_prefix in E. exfalso. apply E.
    by apply prefix_app_r.
Qed.

Lemma DOMAIN_RULES_unshadowed : unshadowed DOMAIN_RULES = true.
Proof. by vm_compute. Qed.

(** No rule of the routing table is shadowed by an earlier one: every
    path that extends the prefix of a rule resolves to the label of that
    rule. *)
Theorem get_domain_of_rule (pre d s : str) :
  (pre, d) ∈ DOMAIN_RULES → get_domain (pre ++ s) = Some d.
Proof. apply unshadowed_get_domain_in, DOMAIN_RULES_unshadowed. Qed.

(** A path keeps its domain when it is extended: what is resolved for a
    directory prefix holds for everything below it. *)
Theorem get_domain_extend (p d s : str) :
  get_domain p = Some d → get_domain (p ++ s) = Some d.
Proof.
  intros H. apply get_domain_in_Some in H as (b & pre & a & H & [k ->] & _).
  rewrite <- app_assoc.
  apply unshadowed_get_domain_in; [apply DOMAIN_RULES_unshadowed|].
  rewrite H. apply elem_of_app. right. apply elem_of_cons. by left.
Qed.

End Table.

Lemma get_domain_of_rule_witness :
  GettextSplit.get_domain (py "storyarn_web/components/sidebar.ex" ++ py "s")
  = Some (py "default").
Proof.
  apply (get_domain_of_rule (py "storyarn_web/components/sidebar.ex")).
  apply (bool_decide_unpack _). vm_compute. reflexivity.
Defined.

Lemma get_domain_extend_witness :
  GettextSplit.get_domain (py "storyarn_web/live/map_live/" ++ py "show.ex")
  = Some (py "maps").
Proof.
  apply (get_domain_extend (py "storyarn_web/live/map_live/")). reflexivity.
Defined.

(** ** White space in the qualified forms *)

Section Spacing.
Import GettextSplit.

Variable uni_alnum : char -> bool.

Lemma spaces_app (w r : str) :
  Forall (fun c => Py.isspace c = true) w →
  Re.spaces (w ++ r) = (length w + Re.spaces r)%nat.
Proof.
  induction 1 as [|c w Hc _ IH]; [done|]. simpl. by rewrite Hc, IH.
Qed.

Lemma spaces_take (r : str) :
  Forall (fun c => Py.isspace c = true) (take (Re.spaces r) r).
Proof.
  induction r as [|c r IH]; simpl; [done|].
  destruct (Py.isspace c) eqn:E; [|done]. simpl. by constructor.
Qed.

Lemma ascii_space_not_word c :
  ascii_space c = true → is_word uni_alnum c = false.
Proof.
  unfold ascii_space, is_word, Py.isspace.
  intros H. apply andb_true_iff in H as [H1 H2]. rewrite H2.
  apply N.ltb_lt in H2.
  repeat (apply orb_true_iff in H1 as [H1|H1]);
    repeat (apply andb_true_iff in H1 as [? H1]);
    repeat match goal with
      | H : (_ <=? _) = true |- _ => apply N.leb_le in H
      | H : (_ =? _) = true |- _ => apply N.eqb_eq in H
      end; try lia.
  - repeat (apply orb_false_iff; split);
      try (apply andb_false_iff; (left + right); apply N.leb_gt; lia);
      apply N.eqb_neq; lia.
  - repeat (apply orb_false_iff; split);
      try (apply andb_false_iff; (left + right); apply N.leb_gt; lia);
      apply N.eqb_neq; lia.
Qed.

Lemma spaces_le (r : str) : (Re.spaces r ≤ length r)%nat.
Proof.
  induction r as [|c r IH]; simpl; [done|].
  destruct (Py.isspace c); simpl; lia.
Qed.

Lemma ascii_spaces (w : str) :
  Forall (fun c => ascii_space c = true) w →
  Forall (fun c => Py.isspace c = true) w.
Proof.
  intros Hw. eapply Forall_impl; [exact Hw|]. intros c H.
  unfold ascii_space in H. by apply andb_true_iff in H as [H _].
Qed.

(** The scan resumes the same way after any two characters that are not
    word characters. *)
Lemma module_call_prev name p p' (s : str) :
  word_start uni_alnum p = word_start uni_alnum p' →
  module_call uni_alnum name p s = module_call uni_alnum name p' s.
Proof. intros H. unfold module_call. by rewrite H. Qed.

Lemma sub_from_module_prev name tmpl p p' (s : str) :
  word_start uni_alnum p = word_start uni_alnum p' →
  Re.sub_from (module_call uni_alnum name) tmpl 0 p s
  = Re.sub_from (module_call uni_alnum name) tmpl 0 p' s.
Proof.
  intros H. destruct s as [|c s]; [done|]. simpl.
  by rewrite (module_call_prev name p p').
Qed.

(** The character the scan has behind it after a run of ASCII white
    space: not a word character, whatever came before the run. *)
Lemma word_start_after_spaces p (w : str) :
  Forall (fun c => ascii_space c = true) w →
  word_start uni_alnum p = true →
  word_start uni_alnum (prev_after p w) = true.
Proof.
  intros Hw Hp. unfold prev_after.
  destruct (last w) as [c|] eqn:E; [|done]. simpl.
  apply negb_true_iff, ascii_space_not_word.
  apply last_Some in E as [w' ->].
  apply Forall_app in Hw as [_ Hw]. by apply Forall_cons_1 in Hw as [Hw _].
Qed.

Lemma prev_after_app p (u v : str) :
  prev_after p (u ++ v) = prev_after (prev_after p u) v.
Proof.
  unfold prev_after. rewrite last_app.
  by destruct (last v), (last u).
Qed.

(** What a qualified pattern matches at a call with white space around
    the handle: everything up to the first character after the white
    space that follows the comma. *)
Lemma module_call_spaced name prev (w1 w2 rest : str) :
  word_start uni_alnum prev = true →
  Forall (fun c => Py.isspace c = true) w1 →
  Forall (fun c => Py.isspace c = true) w2 →
  module_call uni_alnum name prev (name ++ w1 ++ handle ++ w2 ++ rest)
  = Some (length (name ++ w1 ++ handle ++ w2 ++ take (Re.spaces rest) rest),
          []).
Proof.
  intros Hp H1 H2. unfold module_call. rewrite Hp.
  assert (Py.startswith name (name ++ w1 ++ handle ++ w2 ++ rest) = true)
    as -> by (apply startswith_prefix; by eexists).
  cbn [andb]. rewrite drop_app_length, spaces_app by done.
  assert (Re.spaces (handle ++ w2 ++ rest) = 0%nat) as -> by reflexivity.
  rewrite Nat.add_0_r, drop_app_length.
  assert (Py.startswith (py "StoryarnWeb.Gettext,") (handle ++ w2 ++ rest)
          = true) as -> by (apply startswith_prefix; by eexists).
  change (length (py "StoryarnWeb.Gettext,")) with (length handle).
  rewrite drop_app_length, spaces_app by done.
  rewrite !length_app, length_take.
  pose proof (spaces_le rest). do 2 f_equal. lia.
Qed.

(** The substitution of a qualified form at a call with white space around
    the handle. *)
Lemma sub_from_module_spaced name tmpl (w1 w2 rest : str) :
  name ≠ [] →
  Forall (fun c => Py.isspace c = true) w1 →
  Forall (fun c => Py.isspace c = true) w2 →
  let matched := name ++ w1 ++ handle ++ w2 ++ take (Re.spaces rest) rest in
  Re.sub_from (module_call uni_alnum name) tmpl 0 None
    (name ++ w1 ++ handle ++ w2 ++ rest)
  = Re.expand tmpl matched []
    ++ Re.sub_from (module_call uni_alnum name) tmpl 0
         (prev_after None matched) (drop (Re.spaces rest) rest).
Proof.
  intros Hne H1 H2 matched.
  pose proof (module_call_spaced name None w1 w2 rest eq_refl H1 H2) as Hm.
  assert (name ++ w1 ++ handle ++ w2 ++ rest
          = matched ++ drop (Re.spaces rest) rest) as E.
  { unfold matched. rewrite <- !app_assoc. by rewrite take_drop. }
  rewrite (sub_from_match _ _ _ _ _ _ Hm).
  - fold matched. by rewrite E, take_app_length, drop_app_length.
  - fold matched. rewrite E, !length_app.
    destruct name; [done | simpl; lia].
Qed.

Lemma prev_after_matched (name w1 w2 lead : str) :
  Forall (fun c => ascii_space c = true) w2 →
  word_start uni_alnum
    (prev_after None (name ++ w1 ++ handle ++ w2 ++ lead))
  = word_start uni_alnum (prev_after None (name ++ handle ++ lead)).
Proof.
  intros H2.
  rewrite !(app_assoc name), !(app_assoc _ handle), !(app_assoc _ w2).
  rewrite (prev_after_app _ _ lead), (prev_after_app _ (name ++ handle) lead).
  rewrite (prev_after_app _ _ w2).
  assert (∀ u, prev_after None (u ++ handle) = Some 44) as Hh.
  { intros u. unfold prev_after. by rewrite last_app. }
  rewrite !Hh.
  unfold prev_after at 1 3. destruct (last lead); [done|].
  by rewrite word_start_after_spaces.
Qed.

(** A qualified pattern rewrites a call with white space around the
    handle as it rewrites the call without it. *)
Lemma module_pass_spacing name (repl w1 w2 rest : str) :
  name ≠ [] →
  Forall (fun c => ascii_space c = true) w1 →
  Forall (fun c => ascii_space c = true) w2 →
  Re.sub_from (module_call uni_alnum name) (map Re.TLit repl) 0 None
    (name ++ w1 ++ handle ++ w2 ++ rest)
  = Re.sub_from (module_call uni_alnum name) (map Re.TLit repl) 0 None
      (name ++ handle ++ rest).
Proof.
  intros Hne H1 H2.
  rewrite sub_from_module_spaced by (done || by apply ascii_spaces).
  pose proof (sub_from_module_spaced name (map Re.TLit repl) [] [] rest Hne
                (Forall_nil_2 _) (Forall_nil_2 _)) as E.
  cbn [app] in E. rewrite E. cbv zeta.
  rewrite !expand_literal. f_equal.
  apply sub_from_module_prev. by apply prev_after_matched.
Qed.

Lemma module_call_at_space name prev c (t : str) :
  Py.isspace c = true → Py.startswith [71] name = true →
  module_call uni_alnum name prev (c :: t) = None.
Proof.
  intros Hc Hn. apply module_call_head.
  destruct name as [|a name]; [done|].
  change (Py.startswith [71] (a :: name)) with ((71 =? a) && true) in Hn.
  rewrite andb_true_r in Hn. apply N.eqb_eq in Hn as <-.
  change (Py.startswith (71 :: name) (c :: t))
    with ((71 =? c) && Py.startswith name t).
  destruct (N.eqb_spec 71 c) as [<-|]; [done|]. done.
Qed.

Lemma free_prefix_spaces name prev (w v : str) :
  Py.startswith [71] name = true →
  Forall (fun c => Py.isspace c = true) w →
  free_prefix (module_call uni_alnum name) prev w v.
Proof.
  intros Hn Hw. revert prev.
  induction Hw as [|c w Hc _ IH]; intros prev; [done|].
  split; [by apply module_call_at_space | apply IH].
Qed.

(** Form C passes over a call of form D with white space around the
    handle. *)
Lemma form_c_over_form_d tmpl (w1 w2 rest : str) :
  Forall (fun c => ascii_space c = true) w1 →
  Forall (fun c => ascii_space c = true) w2 →
  Re.sub_from (RE_MOD_GETTEXT uni_alnum) tmpl 0 None
    (py "Gettext.ngettext(" ++ w1 ++ handle ++ w2 ++ rest)
  = py "Gettext.ngettext(" ++ w1 ++ handle ++ w2
    ++ Re.sub_from (RE_MOD_GETTEXT uni_alnum) tmpl 0 (Some 44) rest.
Proof.
  intros H1 H2.
  assert (py "Gettext.ngettext(" ++ w1 ++ handle ++ w2 ++ rest
          = (py "Gettext.ngettext(" ++ w1 ++ handle ++ w2) ++ rest) as ->
    by by rewrite <- !app_assoc.
  rewrite sub_from_prefix_free.
  - rewrite <- !app_assoc. do 4 f_equal.
    apply sub_from_module_prev.
    rewrite !app_assoc, prev_after_app.
    rewrite word_start_after_spaces; [done | done |].
    unfold prev_after. by rewrite last_app.
  - apply free_prefix_app;
      [repeat split; apply module_call_head; reflexivity|].
    apply free_prefix_app;
      [by apply free_prefix_spaces, ascii_spaces|].
    apply free_prefix_app;
      [repeat split; apply module_call_head; reflexivity|].
    by apply free_prefix_spaces, ascii_spaces.
Qed.

(** White space, line breaks included, around the locale handle of a
    qualified call does not matter: for every label of the routing table
    the call is rewritten to the same text as the call written without
    it.  This holds for the singular (form C) and the plural (form D)
    call, whatever follows. *)
Theorem qualified_call_spacing (d w1 w2 rest : str) :
  d ∈ DOMAIN_RULES.*2 →
  Forall (fun c => ascii_space c = true) w1 →
  Forall (fun c => ascii_space c = true) w2 →
  transform_content uni_alnum
    (py "Gettext.gettext(" ++ w1 ++ handle ++ w2 ++ rest) d
  = transform_content uni_alnum (py "Gettext.gettext(" ++ handle ++ rest) d
  ∧ transform_content uni_alnum
      (py "Gettext.ngettext(" ++ w1 ++ handle ++ w2 ++ rest) d
    = transform_content uni_alnum
        (py "Gettext.ngettext(" ++ handle ++ rest) d.
Proof.
  intros Hd H1 H2.
  assert (plain_label d) as Hp
    by by apply (proj1 (Forall_forall _ _) domain_labels_plain).
  rewrite !transform_content_plain by done. unfold pass. split.
  - do 4 f_equal. by apply module_pass_spacing.
  - do 3 f_equal.
    rewrite form_c_over_form_d by done.
    pose proof (form_c_over_form_d
                  (map Re.TLit (with_domain head_c d)) [] [] rest
                  (Forall_nil_2 _) (Forall_nil_2 _)) as E.
    cbn [app] in E. rewrite E.
    by apply module_pass_spacing.
Qed.

End Spacing.

Lemma qualified_call_spacing_witness :
  GettextSplit.transform_content (fun _ => false)
    (py "Gettext.gettext(" ++ [NL; 32; 32] ++ handle ++ [NL; 9] ++ py "x)")
    (py "maps")
  = GettextSplit.transform_content (fun _ => false)
      (py "Gettext.gettext(" ++ handle ++ py "x)") (py "maps")
  ∧ GettextSplit.transform_content (fun _ => false)
      (py "Gettext.ngettext(" ++ [NL; 32; 32] ++ handle ++ [NL; 9]
       ++ py "x)") (py "maps")
    = GettextSplit.transform_content (fun _ => false)
        (py "Gettext.ngettext(" ++ handle ++ py "x)") (py "maps").
Proof.
  apply (qualified_call_spacing (fun _ => false) (py "maps")
           [NL; 32; 32] [NL; 9] (py "x)")).
  - apply (bool_decide_unpack _). vm_compute. reflexivity.
  - repeat constructor.
  - repeat constructor.
Defined.


(** ** More on the escape codec *)

Section CodecMore.
Import Migrate.

Lemma replace_from_absent a (old' new s : str) :
  a ∉ s → Py.replace_from (a :: old') new 0 s = s.
Proof.
  induction s as [|c s IH]; [done|]. intros H.
  apply not_elem_of_cons in H as [Hc Hs].
  rewrite replace_from_keep; [by rewrite IH|].
  simpl. destruct (N.eqb_spec a c); [done|]. done.
Qed.

(** A string without a backslash is its own unescaped form. *)
Theorem unescape_without_backslash (s : str) :
  BS ∉ s → _unescape s = s.
Proof.
  intros H. unfold _unescape, Py.replace.
  rewrite (replace_from_absent BS [110] [NL] s) by done.
  rewrite (replace_from_absent BS [DQ] [DQ] s) by done.
  by rewrite (replace_from_absent BS [BS] [BS] s).
Qed.

Lemma escape_char_inj c c' (X Y : str) :
  escape_char c ++ X = escape_char c' ++ Y → c = c' ∧ X = Y.
Proof.
  unfold escape_char.
  destruct (N.eqb_spec c BS) as [->|?], (N.eqb_spec c' BS) as [->|?];
    [by intros [= ->] | | |].
  - destruct (N.eqb_spec c' DQ) as [->|?]; [by intros [=]|].
    destruct (N.eqb_spec c' NL) as [->|?]; [by intros [=]|].
    intros [= ??]. congruence.
  - destruct (N.eqb_spec c DQ) as [->|?]; [by intros [=]|].
    destruct (N.eqb_spec c NL) as [->|?]; [by intros [=]|].
    intros [= ??]. congruence.
  - destruct (N.eqb_spec c DQ) as [->|?], (N.eqb_spec c' DQ) as [->|?];
      [by intros [= ->] | | |].
    + destruct (N.eqb_spec c' NL) as [->|?]; [by intros [=]|].
      intros [= ??]. congruence.
    + destruct (N.eqb_spec c NL) as [->|?]; [by intros [=]|].
      intros [= ??]. congruence.
    + destruct (N.eqb_spec c NL) as [->|?], (N.eqb_spec c' NL) as [->|?];
        [by intros [= ->] | | |].
      * intros [= ??]. congruence.
      * intros [= ??]. congruence.
      * by intros [= -> ->].
Qed.

Lemma escape_char_not_nil c : escape_char c ≠ [].
Proof.
  unfold escape_char.
  by destruct (c =? BS), (c =? DQ), (c =? NL).
Qed.

(** [_escape] loses nothing: two strings with the same escaped form are
    the same string. *)
Theorem escape_injective (x y : str) : _escape x = _escape y → x = y.
Proof.
  rewrite !escape_char_wise. revert y.
  induction x as [|c x IH]; intros [|c' y]; simpl; [done| | |].
  - intros H. symmetry in H. apply app_eq_nil in H as [H _].
    by apply escape_char_not_nil in H.
  - intros H. apply app_eq_nil in H as [H _].
    by apply escape_char_not_nil in H.
  - intros H. apply escape_char_inj in H as [-> H]. f_equal. by apply IH.
Qed.

Lemma escape_quoted_body (x rest : str) :
  (NL ∉ _escape x)
  ∧ Po.quoted_body (_escape x ++ DQ :: rest) = Some (_escape x).
Proof.
  rewrite escape_char_wise. split.
  - induction x as [|c x IH]; simpl; [apply not_elem_of_nil|].
    rewrite not_elem_of_app. split; [|done]. unfold escape_char.
    destruct (N.eqb_spec c BS); [by apply (bool_decide_unpack _)|].
    destruct (N.eqb_spec c DQ); [by apply (bool_decide_unpack _)|].
    destruct (N.eqb_spec c NL); [by apply (bool_decide_unpack _)|].
    apply not_elem_of_cons. split; [done | apply not_elem_of_nil].
  - induction x as [|c x IH]; [done|]. simpl flat_map.
    rewrite <- app_assoc. unfold escape_char at 1 3.
    destruct (N.eqb_spec c BS) as [->|?]; [simpl; by rewrite IH|].
    destruct (N.eqb_spec c DQ) as [->|?]; [simpl; by rewrite IH|].
    destruct (N.eqb_spec c NL) as [->|?]; [simpl; by rewrite IH|].
    simpl. destruct (N.eqb_spec c DQ); [done|].
    destruct (N.eqb_spec c BS); [done|]. by rewrite IH.
Qed.

(** The escaped form stays on one physical line and is a quoted body the
    fill patterns read back whole: up to the closing quote that follows
    it. *)
Theorem quoted_body_escape (x rest : str) :
  (NL ∉ _escape x)
  ∧ Po.quoted_body (_escape x ++ DQ :: rest) = Some (_escape x).
Proof. apply escape_quoted_body. Qed.

(** The round trip of the codec, for use below. *)
Lemma codec_round_trip (x : str) :
  Spec.no_backslash_n x = true → _unescape (_escape x) = x.
Proof.
  intros H. rewrite escape_char_wise. unfold _unescape, Py.replace.
  by rewrite unescape_pass1, unescape_pass2, unescape_pass3.
Qed.

(** The declaration pattern at a line start, on a keyword, one blank and
    a quoted body. *)
Lemma declaration_at kw prev (body rest : str) :
  Re.at_bol prev = true →
  Po.quoted_body (body ++ DQ :: rest) = Some body →
  Po.declaration kw prev (kw ++ 32 :: DQ :: body ++ DQ :: rest)
  = Some ((length kw + 1 + 1 + length body + 1)%nat, [body]).
Proof.
  intros Hb Hq. unfold Po.declaration. rewrite Hb.
  assert (Py.startswith kw (kw ++ 32 :: DQ :: body ++ DQ :: rest) = true)
    as -> by (apply startswith_prefix; by eexists).
  cbn [andb]. rewrite drop_app_length.
  change (Re.spaces (32 :: DQ :: body ++ DQ :: rest)) with 1%nat.
  cbn [drop]. rewrite N.eqb_refl, Hq. done.
Qed.

Lemma fill_msgid_of_escaped (x rest : str) :
  Spec.no_backslash_n x = true →
  Spec.fill_msgid (py "msgid " ++ [DQ] ++ _escape x ++ DQ :: rest) = Some x.
Proof.
  intros H. unfold Spec.fill_msgid, Re.search.
  change (py "msgid " ++ [DQ] ++ _escape x ++ DQ :: rest)
    with (109 :: (py "sgid" ++ 32 :: DQ :: _escape x ++ DQ :: rest)).
  cbn [Re.search_from]. unfold msgid_pattern.
  change (109 :: (py "sgid" ++ 32 :: DQ :: _escape x ++ DQ :: rest))
    with (py "msgid" ++ 32 :: DQ :: _escape x ++ DQ :: rest).
  rewrite declaration_at;
    [| done | by destruct (escape_quoted_body x rest) as [_ ->]].
  cbn [fmap option_fmap option_map lookup list_lookup default].
  unfold id. by rewrite codec_round_trip.
Qed.

(** The key the fill operation reads in a block that declares an escaped
    key is that key: its pattern and [_unescape] undo [_escape]. *)
Theorem fill_msgid_escape (x rest : str) :
  Spec.no_backslash_n x = true →
  Spec.fill_msgid (py "msgid " ++ [DQ] ++ _escape x ++ DQ :: rest) = Some x.
Proof. apply fill_msgid_of_escaped. Qed.

End CodecMore.

Lemma unescape_without_backslash_witness :
  Migrate._unescape (py "Guardar") = py "Guardar".
Proof.
  apply unescape_without_backslash.
  apply (bool_decide_unpack _). vm_compute. reflexivity.
Defined.

Lemma escape_injective_witness : [BS; 110] = [BS; 110].
Proof. apply (escape_injective [BS; 110] [BS; 110]). reflexivity. Defined.

Lemma fill_msgid_escape_witness :
  Spec.fill_msgid
    (py "msgid " ++ [DQ] ++ Migrate._escape (py "say " ++ [DQ; BS])
     ++ DQ :: NL :: py "msgstr " ++ [DQ; DQ])
  = Some (py "say " ++ [DQ; BS]).
Proof. apply fill_msgid_escape. reflexivity. Defined.


(** ** The back-fill on whole files *)

Section FillFile.
Import Spec Migrate.

(** Splitting a text into blocks and separators loses nothing. *)
Lemma split_blocks_concat cur sep (s : str) :
  flat_map (fun ps : str * str => ps.1 ++ ps.2) (Po.split_blocks cur sep s)
  = rev cur ++ match sep with Some sp => rev sp | None => [] end ++ s.
Proof.
  revert cur sep. induction s as [|c s IH]; intros cur sep.
  - destruct sep as [sp|]; cbn [Po.split_blocks flat_map fst snd];
      by rewrite ?app_nil_r.
  - destruct sep as [sp|]; cbn [Po.split_blocks].
    + destruct (c =? NL) eqn:E.
      * rewrite IH. cbn [rev]. by rewrite <- !app_assoc.
      * cbn [flat_map fst snd]. rewrite IH. cbn [rev app].
        by rewrite <- !app_assoc.
    + destruct ((c =? NL) && Py.startswith [NL] s).
      * rewrite IH. done.
      * rewrite IH. cbn [rev app]. by rewrite <- !app_assoc.
Qed.

(** Each block is counted at most once as an entry, and as filled only
    if it is counted; a block not counted as filled is returned as it
    is. *)
Lemma fill_block_counts (block : str) (translations : gmap key str)
  new_block filled total :
  _fill_block block translations = Some (new_block, filled, total) →
  (filled ≤ total)%nat ∧ (filled = 0%nat → new_block = block).
Proof.
  rewrite fill_block_by_key.
  destruct (fill_key block) as [k|]; [|by intros [= <- <- <-]].
  destruct (has_slot k block && nonempty (looked_up translations k));
    intros [= <- <- <-]; split; (lia || done).
Qed.

Lemma fill_parts_counts parts (translations : gmap key str)
  new_content filled total :
  fill_parts parts translations = Some (new_content, filled, total) →
  (filled ≤ total)%nat
  ∧ (filled = 0%nat →
     new_content = flat_map (fun ps : str * str => ps.1 ++ ps.2) parts).
Proof.
  revert new_content filled total.
  induction parts as [|[part sep] parts IH]; intros new_content filled total.
  - by intros [= <- <- <-].
  - simpl.
    destruct (_fill_block part translations) as [[[nb f] t]|] eqn:Hb; [|done].
    destruct (fill_parts parts translations) as [[[tl fs] ts]|]; [|done].
    simpl. intros [= <- <- <-].
    apply fill_block_counts in Hb as [Hb1 Hb2].
    destruct (IH _ _ _ eq_refl) as [IH1 IH2]. split; [lia|].
    intros H0. rewrite Hb2, IH2 by lia. by rewrite <- app_assoc.
Qed.

Lemma fill_po_file_write_facts
  (content : str) (translations : gmap key str) (dry_run : bool) :
  ∃ written filled total,
    fill_po_file_write content translations dry_run
    = Some (written, filled, total)
    ∧ (filled ≤ total)%nat
    ∧ (filled = 0%nat → written = None)
    ∧ (dry_run = true → written = None)
    ∧ (∀ text, written = Some text → text ≠ content).
Proof.
  unfold fill_po_file_write.
  destruct (fill_po_file_returns content translations)
    as [[[new_content filled] total] H].
  rewrite H. cbn [mbind option_bind]. eexists _, _, _. split; [done|].
  unfold fill_po_file in H. apply fill_parts_counts in H as [H1 H2].
  split; [done|]. repeat split.
  - intros H0. rewrite (H2 H0), split_blocks_concat. simpl.
    rewrite bool_decide_false by (by intros ?). by rewrite andb_false_r.
  - intros ->. done.
  - intros text. destruct dry_run; [done|]. simpl.
    case_bool_decide; [|done]. by intros [= <-].
Qed.

(** [fill_po_file] always returns; it never reports more filled entries
    than entries; and it writes the file only outside a dry run, only a
    text that differs from the one it read, and only when it filled at
    least one entry. *)
Theorem fill_po_file_write_only_when_filled
  (content : str) (translations : gmap key str) (dry_run : bool) :
  ∃ written filled total,
    fill_po_file_write content translations dry_run
    = Some (written, filled, total)
    ∧ (filled ≤ total)%nat
    ∧ (filled = 0%nat → written = None)
    ∧ (dry_run = true → written = None)
    ∧ (∀ text, written = Some text → text ≠ content).
Proof. apply fill_po_file_write_facts. Qed.

(** Nothing a table offers, nothing filled: with a table that has no
    non-empty value the text comes back as it is, with no entry filled. *)
Lemma fill_parts_nothing_offered parts (translations : gmap key str) :
  (∀ k v, translations !! k = Some v → v = []) →
  ∃ total, fill_parts parts translations
           = Some (flat_map (fun ps : str * str => ps.1 ++ ps.2) parts,
                   0, total)%nat.
Proof.
  intros Ht. induction parts as [|[part sep] parts [total IH]].
  - by exists 0%nat.
  - simpl. rewrite fill_block_by_key, IH.
    assert (∀ k, nonempty (looked_up translations k) = false) as Hn.
    { intros k. unfold looked_up.
      destruct (translations !! k) as [v|] eqn:E; [|done].
      by rewrite (Ht _ _ E). }
    destruct (fill_key part) as [k|].
    + rewrite Hn, andb_false_r. simpl. eexists.
      by rewrite <- app_assoc.
    + simpl. eexists. by rewrite <- app_assoc.
Qed.

(** With a backup that offers nothing, no key or only empty values, the
    back-fill leaves the text of every file exactly as it is and counts
    nothing as filled. *)
Theorem fill_po_file_nothing_offered
  (content : str) (translations : gmap key str) :
  (∀ k v, translations !! k = Some v → v = []) →
  ∃ total, fill_po_file content translations = Some (content, 0%nat, total).
Proof.
  intros Ht. unfold fill_po_file.
  destruct (fill_parts_nothing_offered
              (Po.split_blocks [] None content) translations Ht) as [t H].
  exists t. by rewrite H, split_blocks_concat.
Qed.

End FillFile.

Lemma fill_po_file_nothing_offered_witness :
  ∃ total, Migrate.fill_po_file greeting_block ∅
           = Some (greeting_block, 0%nat, total).
Proof.
  apply (fill_po_file_nothing_offered greeting_block ∅).
  intros k v H. by rewrite lookup_empty in H.
Defined.

(** ** More on the verifier *)

Section VerifierMore.
Import Verify.

Lemma first_offered_Some k tables v :
  first_offered k tables = Some v →
  ∃ t, t ∈ tables ∧ t !! k = Some v ∧ v ≠ [].
Proof.
  induction tables as [|t tables IH]; simpl; [done|].
  destruct (offered k t) as [w|] eqn:E.
  - intros [= <-]. apply offered_Some in E as [E1 E2].
    exists t. split; [apply elem_of_cons; by left | done].
  - intros H. destruct (IH H) as (t' & Ht' & H').
    exists t'. split; [apply elem_of_cons; by right | done].
Qed.

(** What the aggregate holds for a key is a non-empty value that some
    current file carries for it, and the key is among the keys present. *)
Theorem aggregate_sound (tables : list (gmap key str)) (k : key) (v : str) :
  (aggregate tables).1 !! k = Some v →
  v ≠ [] ∧ k ∈ (aggregate tables).2 ∧ ∃ t, t ∈ tables ∧ t !! k = Some v.
Proof.
  rewrite aggregate_lookup. intros H.
  destruct (first_offered_Some _ _ _ H) as (t & Ht & Hk & Hv).
  split; [done|]. split; [|by exists t].
  apply aggregate_present. exists t. split; [done|].
  apply elem_of_dom. by exists v.
Qed.

Lemma verdict_zero backup tables :
  verdict backup tables = 0%nat ↔
  (∀ k, ¬ Spec.missing backup tables k) ∧ (∀ k, ¬ Spec.lost backup tables k).
Proof.
  rewrite verdict_defect_lists.
  setoid_rewrite <- elem_of_missing_from_any.
  setoid_rewrite <- elem_of_lost_translations.
  destruct (missing_from_any backup (aggregate tables).2) as [|m ms],
    (lost_translations backup (aggregate tables).1) as [|l ls].
  - split; [|done]. intros _.
    split; intros k Hk; by apply elem_of_nil in Hk.
  - split; [done|]. intros [_ H]. exfalso. apply (H l), elem_of_cons. by left.
  - split; [done|]. intros [H _]. exfalso. apply (H m), elem_of_cons. by left.
  - split; [done|]. intros [H _]. exfalso. apply (H m), elem_of_cons. by left.
Qed.

Lemma verdict_0_or_1 backup tables :
  verdict backup tables = 0%nat ∨ verdict backup tables = 1%nat.
Proof.
  rewrite verdict_defect_lists.
  destruct (missing_from_any backup (aggregate tables).2),
    (lost_translations backup (aggregate tables).1); auto.
Qed.

Lemma verdict_same_files backup tables tables' :
  (∀ t, t ∈ tables ↔ t ∈ tables') →
  verdict backup tables = verdict backup tables'.
Proof.
  intros H.
  assert (verdict backup tables = 0%nat ↔ verdict backup tables' = 0%nat)
    as Hz.
  { rewrite !verdict_zero. unfold Spec.missing, Spec.lost.
    split; intros [H1 H2]; split; intros k [Hk1 Hk2].
    - apply (H1 k). split; [done|]. intros t Ht. apply Hk2. by apply H.
    - apply (H2 k). split; [done|]. intros t Ht. apply Hk2. by apply H.
    - apply (H1 k). split; [done|]. intros t Ht. apply Hk2. by apply H.
    - apply (H2 k). split; [done|]. intros t Ht. apply Hk2. by apply H. }
  destruct (verdict_0_or_1 backup tables) as [E|E],
    (verdict_0_or_1 backup tables') as [E'|E']; try congruence.
  - apply Hz in E. congruence.
  - apply Hz in E'. congruence.
Qed.

(** The exit status does not depend on the order in which the current
    files are read, although the aggregate value of a key does. *)
Theorem verdict_order_independent
  (backup : gmap key str) (tables tables' : list (gmap key str)) :
  tables ≡ₚ tables' → verdict backup tables = verdict backup tables'.
Proof.
  intros H. apply verdict_same_files. intros t. by rewrite H.
Qed.



End VerifierMore.

Lemma aggregate_sound_witness :
  py "Guardar" ≠ []
  ∧ KStr (py "Save") ∈ (Verify.aggregate [file_a; file_b]).2
  ∧ ∃ t, t ∈ [file_a; file_b] ∧ t !! KStr (py "Save") = Some (py "Guardar").
Proof.
  apply (aggregate_sound [file_a; file_b] (KStr (py "Save")) (py "Guardar")).
  vm_compute. reflexivity.
Defined.

Lemma verdict_order_independent_witness :
  Verify.verdict file_a [file_a; file_b] = Verify.verdict file_a [file_b; file_a].
Proof.
  apply (verdict_order_independent file_a [file_a; file_b] [file_b; file_a]).
  apply Permutation_swap.
Defined.



(** ** The back-fill run *)

Section MigrateMain.
Import Migrate.

Lemma elem_of_insert_sorted {A} (x y : str * A) l :
  y ∈ Py.insert_sorted x l ↔ y = x ∨ y ∈ l.
Proof.
  induction l as [|z l IH]; simpl.
  - rewrite list_elem_of_singleton, elem_of_nil. tauto.
  - destruct (Py.str_le x.1 z.1).
    + by rewrite elem_of_cons.
    + rewrite !elem_of_cons, IH. tauto.
Qed.

Lemma elem_of_sorted {A} (y : str * A) l : y ∈ Py.sorted l ↔ y ∈ l.
Proof.
  unfold Py.sorted. induction l as [|x l IH]; simpl; [done|].
  by rewrite elem_of_insert_sorted, elem_of_cons, IH.
Qed.

Lemma fill_all_facts po_files (translations : gmap key str) dry_run
  written total_filled total_entries :
  fill_all po_files translations dry_run
  = Some (written, total_filled, total_entries) →
  (total_filled ≤ total_entries)%nat
  ∧ ∀ name text, (name, text) ∈ written →
      dry_run = false
      ∧ ∃ content, (name, content) ∈ po_files ∧ text ≠ content.
Proof.
  revert written total_filled total_entries.
  induction po_files as [|[name0 content0] po_files IH];
    intros written total_filled total_entries.
  - intros [= <- <- <-]. split; [done|].
    intros name text H. by apply elem_of_nil in H.
  - simpl.
    destruct (fill_po_file_write_facts content0 translations dry_run)
      as (w & f & t & -> & Hft & _ & Hdry & Hw).
    cbn [mbind option_bind].
    destruct (fill_all po_files translations dry_run)
      as [[[ws fs] ts]|]; [|done].
    cbn [mbind option_bind]. intros [= <- <- <-].
    destruct (IH _ _ _ eq_refl) as [IH1 IH2]. split; [lia|].
    intros name text Hin.
    assert ((w = Some text ∧ name = name0) ∨ (name, text) ∈ ws) as [[-> ->]|H].
    { destruct w as [text0|]; [|by right].
      apply elem_of_cons in Hin as [[= -> ->]|Hin]; [by left | by right]. }
    + split.
      * destruct dry_run; [|done]. by specialize (Hdry eq_refl).
      * exists content0. split; [apply elem_of_cons; by left | by apply Hw].
    + destruct (IH2 _ _ H) as (Hd & content & Hc & Hne).
      split; [done|]. exists content.
      split; [apply elem_of_cons; by right | done].
Qed.

(** A run of the back-fill that ends normally has written only files of
    the listing whose name ends in [.po] (never the backup), each with a
    text that differs from the one it had, and nothing at all in a dry
    run; the total of filled entries does not exceed the total of
    entries. *)
Theorem main_writes_only_po_files
  (uni_decimal : char -> option N) (dry_run : bool)
  (backup_file : option str) (listing written : list (str * str))
  (total_filled total_entries : nat) :
  main uni_decimal dry_run backup_file listing
  = Done written total_filled total_entries →
  (total_filled ≤ total_entries)%nat
  ∧ ∀ name text, (name, text) ∈ written →
      dry_run = false
      ∧ Py.endswith (py ".po") name = true
      ∧ Py.endswith (py ".bak") name = false
      ∧ ∃ content, (name, content) ∈ listing ∧ text ≠ content.
Proof.
  unfold main. destruct backup_file as [text|]; [|done].
  destruct (parse_po uni_decimal text) as [translations|]; [|done].
  destruct (fill_all _ translations dry_run) as [[[ws fs] ts]|] eqn:E;
    [|done].
  intros [= <- <- <-]. apply fill_all_facts in E as [E1 E2].
  split; [done|]. intros name text' Hin.
  destruct (E2 _ _ Hin) as (Hd & content & Hc & Hne).
  apply elem_of_sorted, list_elem_of_filter in Hc as [[Hpo Hbak] Hc].
  repeat split; try done. by exists content.
Qed.

End MigrateMain.

Lemma main_writes_only_po_files_witness :
  (1 ≤ 1)%nat
  ∧ ∀ name text,
      (name, text) ∈ [(py "flows.po",
                       py "msgid " ++ [DQ] ++ py "greeting" ++ [DQ; NL]
                       ++ py "msgstr " ++ [DQ] ++ py "Hola" ++ [DQ])] →
      false = false
      ∧ Py.endswith (py ".po") name = true
      ∧ Py.endswith (py ".bak") name = false
      ∧ ∃ content,
          (name, content) ∈ [(py "default.po.bak",
                              py "msgid " ++ [DQ] ++ py "greeting" ++ [DQ; NL]
                              ++ py "msgstr " ++ [DQ] ++ py "Hola" ++ [DQ]);
                             (py "flows.po", greeting_block)]
          ∧ text ≠ content.
Proof.
  apply (main_writes_only_po_files (fun _ => None) false
           (Some (py "msgid " ++ [DQ] ++ py "greeting" ++ [DQ; NL]
                  ++ py "msgstr " ++ [DQ] ++ py "Hola" ++ [DQ]))).
  vm_compute. reflexivity.
Defined.


(** ** The four forms *)

Section Forms.
Import GettextSplit.

Variable uni_alnum : char -> bool.

Local Abbreviation bare := (bare_call uni_alnum).

Ltac quiet :=
  first [ apply bare_call_head; reflexivity
        | apply bare_call_blocked; reflexivity ].

Ltac quiet_module := apply module_call_head; reflexivity.

(** No bare pattern matches inside the text a qualified form is replaced
    by. *)
Lemma replacement_c_free name d prev X :
  name = name_a ∨ name = name_b → plain_label d →
  free_prefix (bare name) prev (with_domain head_c d) X.
Proof.
  intros Hn [_ Hd]. unfold with_domain.
  destruct Hn as [-> | ->].
  - apply free_prefix_app; [repeat split; quiet|].
    apply free_prefix_app; [repeat split; quiet|].
    apply free_prefix_app;
      [by apply free_prefix_label; [| apply name_a_no_quote |]
      | repeat split; quiet].
  - apply free_prefix_app; [repeat split; quiet|].
    apply free_prefix_app; [repeat split; quiet|].
    apply free_prefix_app;
      [by apply free_prefix_label; [| apply name_b_no_quote |]
      | repeat split; quiet].
Qed.

Lemma replacement_d_free name d prev X :
  name = name_a ∨ name = name_b → plain_label d →
  free_prefix (bare name) prev (with_domain head_d d) X.
Proof.
  intros Hn [_ Hd]. unfold with_domain.
  destruct Hn as [-> | ->].
  - apply free_prefix_app; [repeat split; quiet|].
    apply free_prefix_app; [repeat split; quiet|].
    apply free_prefix_app;
      [by apply free_prefix_label; [| apply name_a_no_quote |]
      | repeat split; quiet].
  - apply free_prefix_app; [repeat split; quiet|].
    apply free_prefix_app; [repeat split; quiet|].
    apply free_prefix_app;
      [by apply free_prefix_label; [| apply name_b_no_quote |]
      | repeat split; quiet].
Qed.

Lemma lstrip_drop_spaces (s : str) : drop (Re.spaces s) s = Py.lstrip s.
Proof.
  induction s as [|c s IH]; [done|]. simpl.
  by destruct (Py.isspace c).
Qed.

Lemma contains_false_lstrip (p s : str) :
  Py.contains p s = false → Py.contains p (Py.lstrip s) = false.
Proof.
  induction s as [|c s IH]; [done|]. intros H. simpl.
  destruct (Py.isspace c); [|done].
  apply IH. by eapply contains_false_tail.
Qed.

Lemma free_after_replacement name head d (s : str) :
  (∀ prev X, free_prefix (bare name) prev (with_domain head d) X) →
  Py.contains name s = false →
  free (bare name) None (with_domain head d ++ s).
Proof.
  intros Hr Hs. apply free_app; [apply Hr|].
  by apply no_occurrence_free.
Qed.

Lemma settled name' head d (s : str) :
  plain_label d →
  (∀ name prev X, name = name_a ∨ name = name_b →
     free_prefix (bare name) prev (with_domain head d) X) →
  Py.contains name_a s = false →
  (name' = name_a ∨ name' = name_b) →
  free (bare name') None (with_domain head d ++ s)
  ∧ free (module_call uni_alnum (py "Gettext." ++ name')) None
      (with_domain head d ++ s).
Proof.
  intros Hd Hr Hs Hn.
  assert (free (bare name') None (with_domain head d ++ s)) as H.
  { apply free_after_replacement; [intros; by apply Hr|].
    destruct Hn as [-> | ->]; [done | by apply no_gettext_no_ngettext]. }
  split; [done|]. apply module_call_free; [|done].
  by destruct Hn as [-> | ->].
Qed.

Lemma replacement_a_free name d prev X :
  name = name_a ∨ name = name_b → plain_label d →
  free_prefix (bare name) prev (with_domain head_a d) X.
Proof.
  intros [-> | ->] Hd.
  - by apply (replacement_a_free_a uni_alnum).
  - by apply (replacement_a_free_b uni_alnum).
Qed.

Lemma replacement_b_free name d prev X :
  name = name_a ∨ name = name_b → plain_label d →
  free_prefix (bare name) prev (with_domain head_b d) X.
Proof.
  intros [-> | ->] Hd.
  - by apply (replacement_b_free_a uni_alnum).
  - by apply (replacement_b_free_b uni_alnum).
Qed.

(** Once a call is replaced and nothing else is left to replace, the
    remaining substitutions change nothing. *)
Lemma transform_settled head d (s : str) :
  plain_label d →
  (∀ name prev X, name = name_a ∨ name = name_b →
     free_prefix (bare name) prev (with_domain head d) X) →
  Py.contains name_a s = false →
  let t := with_domain head d ++ s in
  pass (RE_MOD_GETTEXT uni_alnum) head_c d t = t
  ∧ pass (RE_MOD_NGETTEXT uni_alnum) head_d d t = t
  ∧ pass (RE_GETTEXT uni_alnum) head_a d t = t
  ∧ pass (RE_NGETTEXT uni_alnum) head_b d t = t.
Proof.
  intros Hd Hr Hs t.
  destruct (settled name_a head d s Hd Hr Hs (or_introl eq_refl)) as [Ha Hc].
  destruct (settled name_b head d s Hd Hr Hs (or_intror eq_refl)) as [Hb Hd'].
  repeat split; by apply sub_from_free.
Qed.

Lemma form_a_plain (d rest : str) :
  plain_label d → Py.contains name_a rest = false →
  transform_content uni_alnum (name_a ++ rest) d
  = Some (with_domain head_a d ++ rest).
Proof.
  intros Hd Hr. rewrite transform_content_plain by done. f_equal.
  pose proof (no_occurrence_free uni_alnum name_a) as Hfa.
  pose proof (module_call_free uni_alnum name_a) as Hfc.
  pose proof (module_call_free uni_alnum name_b) as Hfd.
  assert (pass (RE_MOD_GETTEXT uni_alnum) head_c d (name_a ++ rest)
          = name_a ++ rest) as ->.
  { unfold pass. rewrite sub_from_prefix_free
      by (repeat split; quiet_module).
    f_equal. apply sub_from_free, Hfc; [done | by apply Hfa]. }
  assert (pass (RE_MOD_NGETTEXT uni_alnum) head_d d (name_a ++ rest)
          = name_a ++ rest) as ->.
  { unfold pass. rewrite sub_from_prefix_free
      by (repeat split; quiet_module).
    f_equal. apply sub_from_free, Hfd; [done|].
    by apply no_occurrence_free, no_gettext_no_ngettext. }
  assert (pass (RE_GETTEXT uni_alnum) head_a d (name_a ++ rest)
          = with_domain head_a d ++ rest) as ->.
  { unfold pass. rewrite (sub_from_bare_match uni_alnum name_a) by done.
    rewrite expand_literal. f_equal. apply sub_from_free. by apply Hfa. }
  by apply (transform_settled head_a d rest Hd);
    [intros; by apply replacement_a_free|].
Qed.

Lemma form_b_plain (d rest : str) :
  plain_label d → Py.contains name_a rest = false →
  transform_content uni_alnum (name_b ++ rest) d
  = Some (with_domain head_b d ++ rest).
Proof.
  intros Hd Hr. rewrite transform_content_plain by done. f_equal.
  pose proof (no_gettext_no_ngettext rest Hr) as Hr'.
  pose proof (module_call_free uni_alnum name_a) as Hfc.
  pose proof (module_call_free uni_alnum name_b) as Hfd.
  assert (pass (RE_MOD_GETTEXT uni_alnum) head_c d (name_b ++ rest)
          = name_b ++ rest) as ->.
  { unfold pass. rewrite sub_from_prefix_free
      by (repeat split; quiet_module).
    f_equal. apply sub_from_free, Hfc; [done|].
    by apply no_occurrence_free. }
  assert (pass (RE_MOD_NGETTEXT uni_alnum) head_d d (name_b ++ rest)
          = name_b ++ rest) as ->.
  { unfold pass. rewrite sub_from_prefix_free
      by (repeat split; quiet_module).
    f_equal. apply sub_from_free, Hfd; [done|].
    by apply no_occurrence_free. }
  assert (pass (RE_GETTEXT uni_alnum) head_a d (name_b ++ rest)
          = name_b ++ rest) as ->.
  { unfold pass. rewrite sub_from_prefix_free by (repeat split; quiet).
    f_equal. apply sub_from_free. by apply no_occurrence_free. }
  unfold pass. rewrite (sub_from_bare_match uni_alnum name_b) by done.
  rewrite expand_literal. f_equal. apply sub_from_free.
  by apply no_occurrence_free.
Qed.

Lemma form_c_plain (d rest : str) :
  plain_label d → Py.contains name_a rest = false →
  transform_content uni_alnum (py "Gettext.gettext(" ++ handle ++ rest) d
  = Some (with_domain head_c d ++ Py.lstrip rest).
Proof.
  intros Hd Hr. rewrite transform_content_plain by done. f_equal.
  pose proof (contains_false_lstrip _ _ Hr) as Hl.
  assert (pass (RE_MOD_GETTEXT uni_alnum) head_c d
            (py "Gettext.gettext(" ++ handle ++ rest)
          = with_domain head_c d ++ Py.lstrip rest) as ->.
  { unfold pass, RE_MOD_GETTEXT.
    pose proof (sub_from_module_spaced uni_alnum (py "Gettext.gettext(")
                  (map Re.TLit (with_domain head_c d)) [] [] rest) as E.
    cbn [app] in E. rewrite E by done. cbv zeta.
    rewrite expand_literal, lstrip_drop_spaces. f_equal.
    apply sub_from_free.
    apply (module_call_free uni_alnum name_a); [done|].
    by apply no_occurrence_free. }
  destruct (transform_settled head_c d (Py.lstrip rest) Hd) as (_ & -> & -> & ->);
    [intros; by apply replacement_c_free | done | done].
Qed.

Lemma form_d_plain (d rest : str) :
  plain_label d → Py.contains name_a rest = false →
  transform_content uni_alnum (py "Gettext.ngettext(" ++ handle ++ rest) d
  = Some (with_domain head_d d ++ Py.lstrip rest).
Proof.
  intros Hd Hr. rewrite transform_content_plain by done. f_equal.
  pose proof (contains_false_lstrip _ _ Hr) as Hl.
  assert (pass (RE_MOD_GETTEXT uni_alnum) head_c d
            (py "Gettext.ngettext(" ++ handle ++ rest)
          = py "Gettext.ngettext(" ++ handle ++ rest) as ->.
  { unfold pass.
    pose proof (form_c_over_form_d uni_alnum
                  (map Re.TLit (with_domain head_c d)) [] [] rest) as E.
    cbn [app] in E. rewrite E by done. do 2 f_equal.
    apply sub_from_free.
    apply (module_call_free uni_alnum name_a); [done|].
    by apply no_occurrence_free. }
  assert (pass (RE_MOD_NGETTEXT uni_alnum) head_d d
            (py "Gettext.ngettext(" ++ handle ++ rest)
          = with_domain head_d d ++ Py.lstrip rest) as ->.
  { unfold pass, RE_MOD_NGETTEXT.
    pose proof (sub_from_module_spaced uni_alnum (py "Gettext.ngettext(")
                  (map Re.TLit (with_domain head_d d)) [] [] rest) as E.
    cbn [app] in E. rewrite E by done. cbv zeta.
    rewrite expand_literal, lstrip_drop_spaces. f_equal.
    apply sub_from_free.
    apply (module_call_free uni_alnum name_b); [done|].
    by apply no_occurrence_free, no_gettext_no_ngettext. }
  destruct (transform_settled head_d d (Py.lstrip rest) Hd) as (_ & _ & -> & ->);
    [intros; by apply replacement_d_free | done | done].
Qed.

(** The four forms, each at the start of a text that holds no other
    call, for every label of the routing table: the macro forms get the
    letter d, the label and a blank in front of what followed; the
    qualified forms get the label after the locale handle, and the white
    space that followed the comma becomes one blank. *)
Theorem four_forms (d rest : str) :
  d ∈ DOMAIN_RULES.*2 →
  Py.contains (py "gettext(") rest = false →
  transform_content uni_alnum (py "gettext(" ++ rest) d
  = Some (with_domain (py "dgettext(") d ++ rest)
  ∧ transform_content uni_alnum (py "ngettext(" ++ rest) d
    = Some (with_domain (py "dngettext(") d ++ rest)
  ∧ transform_content uni_alnum
      (py "Gettext.gettext(" ++ handle ++ rest) d
    = Some (with_domain (py "Gettext.dgettext(StoryarnWeb.Gettext, ") d
            ++ Py.lstrip rest)
  ∧ transform_content uni_alnum
      (py "Gettext.ngettext(" ++ handle ++ rest) d
    = Some (with_domain (py "Gettext.dngettext(StoryarnWeb.Gettext, ") d
            ++ Py.lstrip rest).
Proof.
  intros Hd Hr.
  assert (plain_label d) as Hp
    by by apply (proj1 (Forall_forall _ _) domain_labels_plain).
  split; [by apply form_a_plain|]. split; [by apply form_b_plain|].
  split; [by apply form_c_plain | by apply form_d_plain].
Qed.

End Forms.

Lemma four_forms_witness :
  GettextSplit.transform_content (fun _ => false)
    (py "gettext(" ++ [DQ] ++ py "Save" ++ [DQ] ++ py ")") (py "flows")
  = Some (GettextSplit.with_domain (py "dgettext(") (py "flows")
          ++ [DQ] ++ py "Save" ++ [DQ] ++ py ")")
  ∧ GettextSplit.transform_content (fun _ => false)
      (py "ngettext(" ++ [DQ] ++ py "Save" ++ [DQ] ++ py ")") (py "flows")
    = Some (GettextSplit.with_domain (py "dngettext(") (py "flows")
            ++ [DQ] ++ py "Save" ++ [DQ] ++ py ")")
  ∧ GettextSplit.transform_content (fun _ => false)
      (py "Gettext.gettext(" ++ handle ++ [DQ] ++ py "Save" ++ [DQ] ++ py ")")
      (py "flows")
    = Some (GettextSplit.with_domain
              (py "Gettext.dgettext(StoryarnWeb.Gettext, ") (py "flows")
            ++ Py.lstrip ([DQ] ++ py "Save" ++ [DQ] ++ py ")"))
  ∧ GettextSplit.transform_content (fun _ => false)
      (py "Gettext.ngettext(" ++ handle ++ [DQ] ++ py "Save" ++ [DQ] ++ py ")")
      (py "flows")
    = Some (GettextSplit.with_domain
              (py "Gettext.dngettext(StoryarnWeb.Gettext, ") (py "flows")
            ++ Py.lstrip ([DQ] ++ py "Save" ++ [DQ] ++ py ")")).
Proof.
  apply (four_forms (fun _ => false) (py "flows")
           ([DQ] ++ py "Save" ++ [DQ] ++ py ")")).
  - apply (bool_decide_unpack _). vm_compute. reflexivity.
  - reflexivity.
Defined.


(** ** The two parsers *)

Section Parsers.

Variable uni_decimal : char -> option N.

Lemma read_str_read_string (line : str) rest :
  Verify._read_str line rest
  = (fun v => (v, Migrate._skip_string rest))
      <$> Migrate._read_string line rest.
Proof.
  unfold Verify._read_str, Migrate._read_string, Migrate._skip_string.
  by destruct (Py.index DQ line).
Qed.

Lemma scan_lines_agree lines : ∀ skip e,
  Verify.scan_lines uni_decimal skip (to_verify e) lines
  = to_verify <$> Migrate.scan_lines uni_decimal skip e lines.
Proof.
  induction lines as [|line rest IH]; intros skip e; [done|].
  destruct skip as [|k]; [|apply IH].
  cbn [Verify.scan_lines Migrate.scan_lines].
  rewrite read_str_read_string.
  destruct (Py.startswith Po.kw_msgid line).
  { destruct (Migrate._read_string line rest) as [v|]; [|done].
    cbn [fmap option_fmap option_map mbind option_bind]. by rewrite <- IH. }
  destruct (Py.startswith Po.kw_msgid_plural line).
  { destruct (Migrate._read_string line rest) as [v|]; [|done].
    cbn [fmap option_fmap option_map mbind option_bind]. by rewrite <- IH. }
  destruct (Py.startswith Po.kw_msgstr_quote line).
  { destruct (Migrate._read_string line rest) as [v|]; [|done].
    cbn [fmap option_fmap option_map mbind option_bind]. by rewrite <- IH. }
  destruct (Po.match_msgstr_index uni_decimal line) as [[ds val]|];
    [|by rewrite <- IH].
  destruct (Po.int uni_decimal ds) as [idx|]; [|done].
  cbn [mbind option_bind]. by rewrite <- IH.
Qed.

Lemma store_agree e translations :
  Verify.store (to_verify e) translations = Migrate.store e translations.
Proof. by destruct e. Qed.

Lemma parse_block_agree translations block :
  Verify.parse_block uni_decimal translations block
  = Migrate.parse_block uni_decimal translations block.
Proof.
  unfold Verify.parse_block, Migrate.parse_block.
  change Verify.no_entry with (to_verify Migrate.no_entry).
  rewrite scan_lines_agree.
  destruct (Migrate.scan_lines _ _ _ _) as [e|]; [|done].
  cbn [fmap option_fmap option_map mbind option_bind].
  by rewrite store_agree.
Qed.

Lemma parse_blocks_agree blocks : ∀ translations,
  Verify.parse_blocks uni_decimal translations blocks
  = Migrate.parse_blocks uni_decimal translations blocks.
Proof.
  induction blocks as [|block rest IH]; intros translations; [done|].
  cbn [Verify.parse_blocks Migrate.parse_blocks].
  rewrite parse_block_agree.
  destruct (Migrate.parse_block _ _ _) as [t|]; [|done]. apply IH.
Qed.

(** The verifier reads a PO file exactly as the back-fill does: on every
    text the two parsers return the same table, or both raise. *)
Theorem parsers_agree (content : str) :
  Verify.parse_po_entries uni_decimal content
  = Migrate.parse_po uni_decimal content.
Proof. apply parse_blocks_agree. Qed.

Lemma index_None c (s : str) : Py.index c s = None → c ∉ s.
Proof.
  induction s as [|x s IH]; simpl; [intros _; apply not_elem_of_nil|].
  destruct (N.eqb_spec x c); [done|].
  destruct (Py.index c s); [done|]. intros _.
  apply not_elem_of_cons. split; [done | by apply IH].
Qed.

Lemma index_app_Some c (u v : str) :
  c ∈ u → is_Some (Py.index c (u ++ v)).
Proof.
  induction u as [|x u IH]; [by intros ?%elem_of_nil|].
  intros H. simpl. destruct (N.eqb_spec x c); [done|].
  apply elem_of_cons in H as [->|H]; [done|].
  destruct (IH H) as [i ->]. done.
Qed.

Lemma read_string_msgstr (line : str) rest :
  Py.startswith Po.kw_msgstr_quote line = true →
  is_Some (Migrate._read_string line rest).
Proof.
  intros H. apply startswith_app in H. rewrite H.
  unfold Migrate._read_string.
  destruct (index_app_Some DQ Po.kw_msgstr_quote
              (drop (length Po.kw_msgstr_quote) line)) as [i ->]; [|done].
  apply (bool_decide_unpack _). by vm_compute.
Qed.

Lemma int_None (ds : str) :
  Po.int uni_decimal ds = None →
  Po.INT_MAX_STR_DIGITS < N.of_nat (length ds).
Proof.
  unfold Po.int.
  destruct (N.ltb_spec Po.INT_MAX_STR_DIGITS (N.of_nat (length ds)));
    [done|]. done.
Qed.

Lemma scan_lines_None lines : ∀ skip e,
  Migrate.scan_lines uni_decimal skip e lines = None →
  ∃ line, line ∈ lines ∧ raising_line uni_decimal line.
Proof.
  induction lines as [|line rest IH]; intros skip e; [done|].
  assert (∀ k e', Migrate.scan_lines uni_decimal k e' rest = None →
            ∃ l, l ∈ line :: rest ∧ raising_line uni_decimal l) as Hrest.
  { intros k e' H. destruct (IH _ _ H) as (l & Hl & Hk).
    exists l. split; [apply elem_of_cons; by right | done]. }
  destruct skip as [|k]; [|apply Hrest].
  cbn [Migrate.scan_lines].
  destruct (Py.startswith Po.kw_msgid line) eqn:E1.
  { destruct (Migrate._read_string line rest) as [v|] eqn:Ev;
      [apply Hrest|]. intros _. exists line.
    split; [apply elem_of_cons; by left|]. left. split; [by left|].
    unfold Migrate._read_string in Ev. apply index_None.
    by destruct (Py.index DQ line). }
  destruct (Py.startswith Po.kw_msgid_plural line) eqn:E2.
  { destruct (Migrate._read_string line rest) as [v|] eqn:Ev;
      [apply Hrest|]. intros _. exists line.
    split; [apply elem_of_cons; by left|]. left. split; [by right|].
    unfold Migrate._read_string in Ev. apply index_None.
    by destruct (Py.index DQ line). }
  destruct (Py.startswith Po.kw_msgstr_quote line) eqn:E3.
  { destruct (read_string_msgstr line rest E3) as [v ->]. apply Hrest. }
  destruct (Po.match_msgstr_index uni_decimal line) as [[ds val]|] eqn:Em;
    [|apply Hrest].
  destruct (Po.int uni_decimal ds) as [idx|] eqn:Ei; [apply Hrest|].
  intros _. exists line. split; [apply elem_of_cons; by left|].
  right. exists ds, val. split; [done | by apply int_None].
Qed.

Lemma parse_blocks_None blocks : ∀ translations,
  Migrate.parse_blocks uni_decimal translations blocks = None →
  ∃ block line, block ∈ blocks
    ∧ line ∈ Py.splitlines (Py.strip block)
    ∧ raising_line uni_decimal line.
Proof.
  induction blocks as [|block rest IH]; intros translations; [done|].
  cbn [Migrate.parse_blocks]. unfold Migrate.parse_block.
  destruct (Migrate.scan_lines _ _ _ _) as [e|] eqn:E.
  - cbn [mbind option_bind]. intros H.
    destruct (IH _ H) as (b & l & Hb & Hl). exists b, l.
    split; [apply elem_of_cons; by right | done].
  - intros _. destruct (scan_lines_None _ _ _ E) as (l & Hl & Hk).
    exists block, l. split; [apply elem_of_cons; by left | done].
Qed.

(** The only ways the parser raises: some line of some block starts with
    the keyword of a key, or of a plural key, and holds no quote at all;
    or some line is an indexed value whose index has more digits than
    [int] converts. *)
Theorem parse_po_raises_only_on_raising_line (content : str) :
  Migrate.parse_po uni_decimal content = None →
  ∃ block line,
    block ∈ (Po.split_blocks [] None (Py.strip content)).*1
    ∧ line ∈ Py.splitlines (Py.strip block)
    ∧ raising_line uni_decimal line.
Proof. apply parse_blocks_None. Qed.

End Parsers.

Lemma parse_po_raises_only_on_raising_line_witness :
  ∃ block line,
    block ∈ (Po.split_blocks [] None
               (Py.strip (py "msgid" ++ [32; 32] ++ py "Save"))).*1
    ∧ line ∈ Py.splitlines (Py.strip block)
    ∧ raising_line (fun _ => None) line.
Proof.
  apply (parse_po_raises_only_on_raising_line (fun _ => None)).
  vm_compute. reflexivity.
Defined.

(** An index of one digit more than [int] converts makes the parser
    raise. *)
Lemma parse_po_long_index_raises (uni_decimal : char -> option N) :
  Migrate.parse_po uni_decimal
    (py "msgstr[" ++ replicate 4301 48 ++ py "] " ++ [DQ; 120; DQ])
  = None.
Proof. vm_compute. reflexivity. Qed.

(** ** An entry written, then read *)

Section RoundTrip.
Import Spec Migrate.

Variable uni_decimal : char -> option N.

Lemma rstrip_app_nonspace (s : str) d :
  Py.isspace d = false → Py.rstrip (s ++ [d]) = s ++ [d].
Proof.
  intros Hd. induction s as [|c s IH]; simpl; [by rewrite Hd|].
  rewrite IH. by destruct s.
Qed.

Lemma key_line_app (a rest : str) :
  key_line a ++ rest = py "msgid " ++ [DQ] ++ a ++ DQ :: rest.
Proof. unfold key_line. by rewrite <- !app_assoc. Qed.

Lemma value_line_snoc (u b : str) :
  u ++ value_line b = (u ++ py "msgstr " ++ [DQ] ++ b) ++ [DQ].
Proof. unfold value_line. by rewrite <- !app_assoc. Qed.

Lemma strip_entry (a b : str) :
  Py.strip (key_line a ++ NL :: value_line b)
  = key_line a ++ NL :: value_line b.
Proof.
  unfold Py.strip.
  assert (Py.lstrip (key_line a ++ NL :: value_line b)
          = key_line a ++ NL :: value_line b) as -> by reflexivity.
  change (key_line a ++ NL :: value_line b)
    with (key_line a ++ [NL] ++ value_line b).
  rewrite !app_assoc, value_line_snoc.
  by apply rstrip_app_nonspace.
Qed.

Lemma one_line_plain (s : str) : one_line s → NL ∉ s.
Proof.
  intros H Hin. unfold one_line in H. rewrite Forall_forall in H.
  by specialize (H _ Hin).
Qed.

Lemma one_line_key_line (a : str) : one_line a → one_line (key_line a).
Proof.
  intros H. unfold key_line, one_line. rewrite !Forall_app.
  split; [by repeat constructor|]. split; [by repeat constructor|].
  split; [done | by repeat constructor].
Qed.

Lemma one_line_value_line (b : str) : one_line b → one_line (value_line b).
Proof.
  intros H. unfold value_line, one_line. rewrite !Forall_app.
  split; [by repeat constructor|]. split; [by repeat constructor|].
  split; [done | by repeat constructor].
Qed.

Lemma split_blocks_plain (s : str) : ∀ cur,
  NL ∉ s → Po.split_blocks cur None s = [(rev cur ++ s, [])].
Proof.
  induction s as [|c s IH]; intros cur H; simpl.
  - by rewrite app_nil_r.
  - apply not_elem_of_cons in H as [Hc Hs].
    destruct (N.eqb_spec c NL); [done|]. cbn [andb].
    rewrite IH by done. simpl. by rewrite <- app_assoc.
Qed.

Lemma split_blocks_two_lines (l : str) : ∀ cur d (r : str),
  NL ∉ l → NL ∉ d :: r →
  Po.split_blocks cur None (l ++ NL :: d :: r)
  = [(rev cur ++ l ++ NL :: d :: r, [])].
Proof.
  induction l as [|c l IH]; intros cur d r Hl Hr.
  - cbn [app Po.split_blocks].
    apply not_elem_of_cons in Hr as [Hd Hr].
    change (NL =? NL) with true. cbn [andb].
    assert (Py.startswith [NL] (d :: r) = false) as ->.
    { cbn [Py.startswith]. destruct (N.eqb_spec NL d); [|done]. congruence. }
    destruct (N.eqb_spec d NL); [done|]. cbn [andb].
    rewrite split_blocks_plain by done. simpl. by rewrite <- !app_assoc.
  - apply not_elem_of_cons in Hl as [Hc Hl].
    cbn [app Po.split_blocks]. destruct (N.eqb_spec c NL); [done|].
    cbn [andb]. rewrite IH by done. simpl. by rewrite <- app_assoc.
Qed.

Lemma splitlines_from_plain (s : str) : ∀ cur,
  one_line s → s ≠ [] → Py.splitlines_from cur s = [rev cur ++ s].
Proof.
  induction s as [|c s IH]; intros cur H Hs; [done|].
  apply Forall_cons in H as [Hc H]. cbn [Py.splitlines_from]. rewrite Hc.
  destruct s as [|c' s].
  - by cbn.
  - rewrite IH by done. simpl. by rewrite <- app_assoc.
Qed.

Lemma splitlines_from_two_lines (l : str) : ∀ cur (r : str),
  one_line l → one_line r → r ≠ [] →
  Py.splitlines_from cur (l ++ NL :: r) = [rev cur ++ l; r].
Proof.
  induction l as [|c l IH]; intros cur r Hl Hr Hne.
  - cbn [app Py.splitlines_from].
    change (Py.is_linebreak NL) with true. cbn match.
    destruct r as [|d r]; [done|].
    change (NL =? 13) with false. cbn [andb].
    rewrite (splitlines_from_plain (d :: r)) by done.
    by rewrite app_nil_r.
  - apply Forall_cons in Hl as [Hc Hl].
    cbn [app Py.splitlines_from]. rewrite Hc.
    rewrite IH by done. simpl. by rewrite <- app_assoc.
Qed.

Lemma slice_to_last_body (u x : str) d :
  Py.slice_to_last (length u) (u ++ x ++ [d]) = x.
Proof.
  unfold Py.slice_to_last.
  rewrite (app_assoc u x [d]), length_app. simpl length.
  replace (length (u ++ x) + 1 - 1)%nat with (length (u ++ x)) by lia.
  by rewrite take_app_length, drop_app_length.
Qed.

Lemma read_key_line (a : str) rest :
  Po.continuation rest = [] →
  _read_string (key_line a) rest = Some (_unescape a).
Proof.
  intros Hc. unfold _read_string.
  assert (Py.index DQ (key_line a) = Some 6%nat) as -> by reflexivity.
  cbn [mbind option_bind]. unfold Po.continued. rewrite Hc.
  change (6 + 1)%nat with (length (py "msgid " ++ [DQ])).
  unfold key_line. rewrite (app_assoc (py "msgid ") [DQ] (a ++ [DQ])).
  rewrite slice_to_last_body. simpl. by rewrite app_nil_r.
Qed.

Lemma read_value_line (b : str) :
  _read_string (value_line b) [] = Some (_unescape b).
Proof.
  unfold _read_string.
  assert (Py.index DQ (value_line b) = Some 7%nat) as -> by reflexivity.
  cbn [mbind option_bind]. unfold Po.continued.
  change (7 + 1)%nat with (length (py "msgstr " ++ [DQ])).
  unfold value_line. rewrite (app_assoc (py "msgstr ") [DQ] (b ++ [DQ])).
  rewrite slice_to_last_body. simpl. by rewrite app_nil_r.
Qed.

Lemma scan_entry_lines (a b : str) :
  scan_lines uni_decimal 0 no_entry [key_line a; value_line b]
  = Some (Entry (Some (_unescape a)) None (Some (_unescape b)) ∅).
Proof.
  cbn [scan_lines].
  assert (Py.startswith Po.kw_msgid (key_line a) = true) as ->
    by reflexivity.
  rewrite read_key_line by reflexivity.
  cbn [mbind option_bind].
  assert (_skip_string [value_line b] = 0%nat) as -> by reflexivity.
  assert (Py.startswith Po.kw_msgid (value_line b) = false) as ->
    by reflexivity.
  assert (Py.startswith Po.kw_msgid_plural (value_line b) = false) as ->
    by reflexivity.
  assert (Py.startswith Po.kw_msgstr_quote (value_line b) = true) as ->
    by reflexivity.
  rewrite read_value_line. done.
Qed.

(** The parser on the two lines of an entry, whatever their raw bodies,
    as long as [str.splitlines] does not cut them. *)
Lemma parse_po_two_lines (a b : str) :
  one_line a → one_line b →
  parse_po uni_decimal (key_line a ++ NL :: value_line b)
  = Some (store (Entry (Some (_unescape a)) None (Some (_unescape b)) ∅) ∅).
Proof.
  intros Ha Hb. unfold parse_po. rewrite strip_entry.
  assert (Po.split_blocks [] None (key_line a ++ NL :: value_line b)
          = [(key_line a ++ NL :: value_line b, [])]) as ->.
  { apply (split_blocks_two_lines (key_line a) [] 109
             (py "sgstr " ++ [DQ] ++ b ++ [DQ])).
    - by apply one_line_plain, one_line_key_line.
    - by apply (one_line_plain (value_line b)), one_line_value_line. }
  cbn [fmap list_fmap fst parse_blocks]. unfold parse_block.
  rewrite strip_entry. unfold Py.splitlines.
  rewrite splitlines_from_two_lines;
    [| by apply one_line_key_line | by apply one_line_value_line | done].
  cbn [rev app]. rewrite scan_entry_lines. done.
Qed.

Lemma one_line_escape (x : str) :
  breaks_at_newlines x → one_line (_escape x).
Proof.
  rewrite escape_char_wise. unfold breaks_at_newlines, one_line.
  induction x as [|c x IH]; intros H; [constructor|].
  apply Forall_cons in H as [Hc H]. simpl. apply Forall_app.
  split; [|by apply IH]. unfold escape_char.
  destruct (N.eqb_spec c BS); [by repeat constructor|].
  destruct (N.eqb_spec c DQ); [by repeat constructor|].
  destruct (N.eqb_spec c NL); [by repeat constructor|].
  constructor; [|constructor].
  destruct (Py.is_linebreak c); [|done]. by specialize (Hc eq_refl).
Qed.

Lemma parse_entry_text (id v : str) :
  id ≠ [] →
  no_backslash_n id = true → no_backslash_n v = true →
  breaks_at_newlines id → breaks_at_newlines v →
  parse_po uni_decimal (entry_text id v) = Some {[ KStr id := v ]}.
Proof.
  intros Hne Hid Hv Hbi Hbv. unfold entry_text.
  rewrite parse_po_two_lines by by apply one_line_escape.
  rewrite !codec_round_trip by done.
  unfold store. cbn [msgid msgid_plural msgstr].
  by destruct id.
Qed.

(** The parser reads back an entry written with its key and value
    escaped: when neither holds a backslash before the letter n nor a
    line boundary other than the line feed, the file of that one entry
    parses to the table of that key and value. *)
Theorem parse_po_escaped_entry (id v : str) :
  id ≠ [] →
  no_backslash_n id = true → no_backslash_n v = true →
  breaks_at_newlines id → breaks_at_newlines v →
  parse_po uni_decimal (entry_text id v) = Some {[ KStr id := v ]}.
Proof. apply parse_entry_text. Qed.

Lemma search_from_line_end m prev (l : str) :
  (∀ p s, Re.at_bol p = false → m p s = None) →
  NL ∉ l → (l ≠ [] → m prev l = None) →
  Re.search_from m prev l = None.
Proof.
  intros Hm. revert prev. induction l as [|c l IH]; intros prev Hl H0; [done|].
  apply not_elem_of_cons in Hl as [Hc Hl].
  cbn [Re.search_from]. rewrite H0 by done. apply IH; [done|].
  intros _. apply Hm. simpl. by apply N.eqb_neq.
Qed.

Lemma search_from_next_line m prev (l r : str) :
  (∀ p s, Re.at_bol p = false → m p s = None) →
  NL ∉ l → l ≠ [] → m prev (l ++ NL :: r) = None →
  Re.search_from m prev (l ++ NL :: r) = Re.search_from m (Some NL) r.
Proof.
  intros Hm. revert prev. induction l as [|c l IH]; intros prev Hl Hne H0;
    [done|].
  apply not_elem_of_cons in Hl as [Hc Hl].
  cbn [app Re.search_from]. cbn [app] in H0. rewrite H0.
  destruct l as [|c' l].
  - cbn [app Re.search_from]. rewrite Hm; [done|].
    simpl. by apply N.eqb_neq.
  - apply IH; [done..|]. apply Hm. simpl. by apply N.eqb_neq.
Qed.

Lemma declaration_bol kw p (s : str) :
  Re.at_bol p = false → Po.declaration kw p s = None.
Proof. intros H. unfold Po.declaration. by rewrite H. Qed.

Lemma whole_line_bol line groups p (s : str) :
  Re.at_bol p = false → Po.whole_line line groups p s = None.
Proof. intros H. unfold Po.whole_line. by rewrite H. Qed.

Lemma key_line_plain (a : str) : one_line a → NL ∉ key_line a.
Proof. intros H. by apply one_line_plain, one_line_key_line. Qed.

Lemma no_plural_in_entry (a b : str) :
  one_line a → one_line b →
  Re.search msgid_plural_pattern (key_line a ++ NL :: value_line b) = None.
Proof.
  intros Ha Hb. unfold Re.search, msgid_plural_pattern.
  rewrite search_from_next_line;
    [| apply declaration_bol | by apply key_line_plain | done | reflexivity].
  apply search_from_line_end; [apply declaration_bol | | reflexivity].
  by apply one_line_plain, one_line_value_line.
Qed.

Lemma slot_in_entry (a : str) :
  one_line a →
  Re.search (Po.whole_line Po.empty_msgstr [])
    (key_line a ++ NL :: Po.empty_msgstr) = Some [].
Proof.
  intros Ha. unfold Re.search.
  rewrite search_from_next_line;
    [reflexivity | apply whole_line_bol | by apply key_line_plain | done
    | reflexivity].
Qed.

Lemma fill_key_entry (id : str) :
  id ≠ [] → no_backslash_n id = true → breaks_at_newlines id →
  fill_key (entry_text id []) = Some (KStr id).
Proof.
  intros Hne Hid Hb. unfold fill_key, entry_text.
  rewrite strip_entry.
  assert (nonempty (key_line (_escape id) ++ NL :: value_line (_escape []))
          = true) as -> by reflexivity.
  assert (Py.contains (py "msgid")
            (key_line (_escape id) ++ NL :: value_line (_escape []))
          = true) as -> by reflexivity.
  cbn [negb orb].
  rewrite no_plural_in_entry; [| by apply one_line_escape | constructor].
  rewrite key_line_app, fill_msgid_of_escaped by done.
  by destruct id.
Qed.

Lemma fill_entry (id v : str) (translations : gmap key str) :
  id ≠ [] → no_backslash_n id = true → breaks_at_newlines id →
  v ≠ [] → BS ∉ v → one_line v →
  translations !! KStr id = Some v →
  fill_po_file (entry_text id []) translations
  = Some (entry_text id v, 1, 1)%nat.
Proof.
  intros Hne Hid Hb Hv Hbs Hl Hk.
  pose proof (one_line_escape id Hb) as Hie.
  unfold fill_po_file.
  assert (Po.split_blocks [] None (entry_text id [])
          = [(entry_text id [], [])]) as ->.
  { apply (split_blocks_two_lines (key_line (_escape id)) [] 109
             (py "sgstr " ++ [DQ; DQ])).
    - by apply key_line_plain.
    - apply (bool_decide_unpack _). by vm_compute. }
  cbn [fill_parts].
  rewrite (fill_block_writes _ _ (KStr id));
    [| by apply fill_key_entry
     | cbn [has_slot]; apply bool_decide_eq_true;
       unfold entry_text; change (value_line (_escape [])) with Po.empty_msgstr;
       by rewrite slot_in_entry
     | unfold looked_up; by rewrite Hk].
  cbn [mbind option_bind]. rewrite !app_nil_r.
  unfold looked_up. rewrite Hk. cbn [default slot filled_line].
  unfold entry_text at 1.
  rewrite lines_app_newline by by apply key_line_plain.
  change (value_line (_escape [])) with Po.empty_msgstr.
  rewrite lines_plain
    by (apply (bool_decide_unpack _); by vm_compute).
  cbn [map]. unfold fill_line at 2. rewrite decide_True by done.
  unfold fill_line. rewrite decide_False.
  - unfold unlines, filled_msgstr.
    rewrite written_value_plain by (done || by apply one_line_plain).
    done.
  - intros H. apply (f_equal (fun s => s !! 3%nat)) in H.
    by vm_compute in H.
Qed.

(** A run of the back-fill on the file of one entry with an empty value,
    for a translation without backslash or line boundary, fills that
    entry, and the file it produces parses back to the key and its
    translation. *)
Theorem fill_then_parse (id v : str) (translations : gmap key str) :
  id ≠ [] → no_backslash_n id = true → breaks_at_newlines id →
  v ≠ [] → BS ∉ v → one_line v →
  translations !! KStr id = Some v →
  ∃ new_content,
    fill_po_file (entry_text id []) translations
    = Some (new_content, 1, 1)%nat
    ∧ parse_po uni_decimal new_content = Some {[ KStr id := v ]}.
Proof.
  intros Hne Hid Hb Hv Hbs Hl Hk. exists (entry_text id v).
  split; [by apply fill_entry|].
  apply parse_entry_text; try done.
  - clear -Hbs. induction v as [|c v IH]; [done|].
    apply not_elem_of_cons in Hbs as [Hc Hbs].
    rewrite no_backslash_n_cons. rewrite IH by done.
    by destruct (N.eqb_spec c BS).
  - unfold breaks_at_newlines. eapply Forall_impl; [exact Hl|].
    intros c Hc Hc'. congruence.
Qed.

End RoundTrip.

Lemma parse_po_escaped_entry_witness :
  Migrate.parse_po (fun _ => None)
    (entry_text (py "say " ++ [DQ] ++ py "hi" ++ [DQ])
                (py "di" ++ [NL; BS] ++ py "hola"))
  = Some {[ KStr (py "say " ++ [DQ] ++ py "hi" ++ [DQ])
            := py "di" ++ [NL; BS] ++ py "hola" ]}.
Proof.
  apply parse_po_escaped_entry;
    [done | reflexivity | reflexivity
    | apply (bool_decide_unpack _); vm_compute; reflexivity
    | apply (bool_decide_unpack _); vm_compute; reflexivity].
Defined.

Lemma fill_then_parse_witness :
  ∃ new_content,
    Migrate.fill_po_file (entry_text (py "Save") [])
      {[ KStr (py "Save") := py "Guardar" ]}
    = Some (new_content, 1, 1)%nat
    ∧ Migrate.parse_po (fun _ => None) new_content
      = Some {[ KStr (py "Save") := py "Guardar" ]}.
Proof.
  apply fill_then_parse;
    [done | reflexivity
    | apply (bool_decide_unpack _); vm_compute; reflexivity
    | done
    | apply (bool_decide_unpack _); vm_compute; reflexivity
    | apply (bool_decide_unpack _); vm_compute; reflexivity
    | reflexivity].
Defined.
